(** * Spin-blade battle: the seeded generator, the spawn and the physics step

    A shallow embedding of [src/components/spin-blade.tsx].

    Numbers.  A JavaScript [number] that the code only ever uses as an
    integer (the generator state, the bit-mixing temporaries) is a [Z]; the
    32-bit conversions of the bitwise operators and the rounding of an
    integer sum to a double are written out.  The physical quantities
    (positions, velocities, health, ...) are modelled in exact real
    arithmetic ([R]): rounding and overflow of the physics are outside the
    model, division by zero is made visible by a checked variant of the step
    ([physicsStep_c]). *)

From Stdlib Require Import ZArith NArith List String Bool Lia Reals Lra.
From Stdlib Require PrimFloat.
From stdpp Require Import base list.

Local Open Scope Z_scope.

(** ** JavaScript integer conversions *)

Module Js.

Definition two32 : Z := 4294967296.
Definition two31 : Z := 2147483648.
Definition two53 : Z := 9007199254740992.

(** [ToUint32]: what [x >>> 0] does to an integer-valued number. *)
Definition ToUint32 (z : Z) : Z := z mod two32.

(** [ToInt32]: the conversion applied to the operands of [^] and [|] and of
    [Math.imul]. *)
Definition ToInt32 (z : Z) : Z := (z + two31) mod two32 - two31.

(** [a >>> n] *)
Definition ushr (a n : Z) : Z := Z.shiftr (ToUint32 a) n.

(** [a ^ b] *)
Definition bxor (a b : Z) : Z := Z.lxor (ToInt32 a) (ToInt32 b).

(** [a | b] *)
Definition bor (a b : Z) : Z := Z.lor (ToInt32 a) (ToInt32 b).

(** [Math.imul(a, b)] *)
Definition imul (a b : Z) : Z := ToInt32 (ToInt32 a * ToInt32 b).

(** The double nearest to the integer [z] (round to nearest, ties to even):
    integers of magnitude below 2^53 are doubles, above that the spacing of
    doubles is [2^e] with [e = log2 |z| - 52].  (Overflow to infinity, at
    2^1024, is out of reach of the additions modelled here.) *)
Definition round_double (z : Z) : Z :=
  let m := Z.abs z in
  if m <? two53 then z
  else
    let e := Z.log2 m - 52 in
    let q := Z.shiftr m e in
    let rest := m - Z.shiftl q e in
    let half := Z.shiftl 1 (e - 1) in
    let q' := if rest <? half then q
              else if half <? rest then q + 1
              else if Z.even q then q else q + 1 in
    Z.sgn z * Z.shiftl q' e.

(** [a + b] on integer-valued numbers. *)
Definition add (a b : Z) : Z := round_double (a + b).

End Js.

(** ** The seeded generator ([mulberry32], lines 50-58) *)

Module Rng.
Import Js.

(** [0x6D2B79F5] *)
Definition increment : Z := 1831565813.

(** [let t = seed >>> 0]: the state captured by the returned closure. *)
Definition mulberry32 (seed : Z) : Z := ToUint32 seed.

(** The two mixing statements and the final [(r ^ (r >>> 14)) >>> 0], as a
    function of the advanced state [t]. *)
Definition mix (t : Z) : Z :=
  let r := imul (bxor t (ushr t 15)) (bor 1 t) in
  let r := bxor r (add r (imul (bxor r (ushr r 7)) (bor 61 r))) in
  ushr (bxor r (ushr r 14)) 0.

(** One call of the closure: the new state and the 32-bit numerator of the
    returned number (the closure returns this numerator divided by
    4294967296). *)
Definition next (t : Z) : Z * Z :=
  let t' := add t increment in
  (t', mix t').

(** State of the closure after [k] calls. *)
Definition state_after (seed : Z) (k : N) : Z :=
  N.iter k (fun t => fst (next t)) (mulberry32 seed).

(** Numerator returned by call number [k + 1] (calls counted from 0). *)
Definition draw (seed : Z) (k : N) : Z := snd (next (state_after seed k)).

(** The generator the specification describes: a 32-bit state that wraps. *)
Definition spec_next (s : Z) : Z * Z :=
  let s' := (s + increment) mod two32 in
  (s', mix s').

Definition spec_state_after (seed : Z) (k : N) : Z :=
  N.iter k (fun s => fst (spec_next s)) (seed mod two32).

Definition spec_draw (seed : Z) (k : N) : Z :=
  snd (spec_next (spec_state_after seed k)).

End Rng.


(** ** Numbers of the physics *)

Local Open Scope R_scope.

Definition Rltb (a b : R) : bool := if Rlt_dec a b then true else false.
Definition Rleb (a b : R) : bool := if Rle_dec a b then true else false.

(** [Math.hypot(a, b)] *)
Definition hypot (a b : R) : R := sqrt (a * a + b * b).

(** The number a call of the generator returns, from its 32-bit numerator. *)
Definition uniform (n : Z) : R := IZR n / 4294967296.

(** ** Data model (lines 18-40, 61-81) *)

Record Movie := mkMovie { m_id : string; m_label : string; m_color : string }.

Record Top := mkTop {
  id : string;
  label : string;
  color : string;
  x : R;
  y : R;
  vx : R;
  vy : R;
  ang : R;
  vang : R;
  r : R;
  hp : R;
  alive : bool
}.

Record Settings := mkSettings {
  arenaR : R;
  friction : R;
  spinFriction : R;
  damage : R;
  topR : R;
  seed : Z
}.

(** [simRef.current] *)
Record Sim := mkSim {
  running : bool;
  tops : list Top;
  winner : option string
}.

(** [rngRef.current]: initially [() => Math.random()], after [spawnTops] a
    [mulberry32] closure, represented by its captured state. *)
Inductive RngRef :=
| SystemRandom
| Seeded (t : Z).

(** The state the component's functions read and write. *)
Record Component := mkComponent {
  movies : list Movie;
  settings : Settings;
  simRef : Sim;
  rngRef : RngRef
}.

(** How a call completes: the functions modelled here have no [throw] and
    return no value, so every call completes with [Normal]. *)
Inductive Completion :=
| Normal
| Throw (reason : string).

(** ** Building the initial state ([spawnTops], lines 86-110) *)

(** The callback of [movies.map], for the movie at index [i] of [n], run on
    the generator state [t]; the five calls of [rngRef.current()] happen in
    the order of the source text. *)
Definition spawn_one (s : Settings) (n i : nat) (m : Movie) (t : Z) : Top * Z :=
  let rr := arenaR s - topR s - 6 in
  let angleStep := (2 * PI) / Rmax 1 (INR n) in
  let '(t1, u1) := Rng.next t in
  let a := INR i * angleStep + uniform u1 * 0.2 in
  let '(t2, u2) := Rng.next t1 in
  let rad := rr * 0.85 + rr * 0.15 * uniform u2 in
  let '(t3, u3) := Rng.next t2 in
  let speed := 120 + 80 * uniform u3 in
  let '(t4, u4) := Rng.next t3 in
  let dir := a + PI + (uniform u4 - 0.5) * 0.6 in
  let '(t5, u5) := Rng.next t4 in
  let va := (uniform u5 - 0.5) * 14 in
  (mkTop (m_id m) (m_label m) (m_color m)
         (cos a * rad) (sin a * rad) (cos dir * speed) (sin dir * speed)
         a va (topR s) 100 true,
   t5).

Fixpoint spawn_from (s : Settings) (n i : nat) (ms : list Movie) (t : Z)
  : list Top * Z :=
  match ms with
  | [] => ([], t)
  | m :: ms' =>
      let '(top, t1) := spawn_one s n i m t in
      let '(rest, t2) := spawn_from s n (S i) ms' t1 in
      (top :: rest, t2)
  end.

Definition spawnTops (c : Component) : Component :=
  let s := settings c in
  let '(arr, t) :=
    spawn_from s (length (movies c)) 0 (movies c) (Rng.mulberry32 (seed s)) in
  mkComponent (movies c) s
              (mkSim (running (simRef c)) arr None)
              (Seeded t).

(** ** Controls ([start], lines 113-118) *)

Definition set_running (b : bool) (c : Component) : Component :=
  mkComponent (movies c) (settings c)
              (mkSim b (tops (simRef c)) (winner (simRef c)))
              (rngRef c).

(** [tick()] only schedules the animation loop; the physics steps it runs
    later are [physicsStep] below. *)
Definition start (c : Component) : Completion * Component :=
  if (length (movies c) <? 2)%nat then (Normal, c)
  else (Normal, set_running true (spawnTops c)).

(** ** Physics ([physicsStep], lines 123-193) *)

Definition FIXED_DT : R := 1 / 120.
Definition WALL_RESTITUTION : R := 0.85.
Definition COLL_RESTITUTION : R := 0.8.

(** First loop: integrate and damp. *)
Definition integrate_one (s : Settings) (dt : R) (t : Top) : Top :=
  if alive t then
    mkTop (id t) (label t) (color t)
          (x t + vx t * dt) (y t + vy t * dt)
          (vx t * Rmax 0 (1 - friction s * dt))
          (vy t * Rmax 0 (1 - friction s * dt))
          (ang t + vang t * dt)
          (vang t * Rmax 0 (1 - spinFriction s * dt))
          (r t) (hp t) true
  else t.

(** Second loop, the body of [if (dist > limit)], given the computed
    distance and normal. *)
Definition wall_reflect (s : Settings) (t : Top) (dist nx ny : R) : Top :=
  let limit := arenaR s - r t - 4 in
  let pen := dist - limit in
  let vn := vx t * nx + vy t * ny in
  let vtX := vx t - vn * nx in
  let vtY := vy t - vn * ny in
  let rvx := vtX - vn * nx * WALL_RESTITUTION in
  let rvy := vtY - vn * ny * WALL_RESTITUTION in
  let impact := Rabs vn in
  mkTop (id t) (label t) (color t)
        (x t - nx * pen) (y t - ny * pen) rvx rvy
        (ang t) (vang t) (r t)
        (hp t - (impact * 0.03) * damage s) (alive t).

Definition wall_bounce (s : Settings) (t : Top) : Top :=
  let dist := hypot (x t) (y t) in
  wall_reflect s t dist (x t / dist) (y t / dist).

(** The condition of the [// Ring out] test; [dist] is the distance
    computed at the top of the loop body, before any push-back. *)
Definition ring_out (s : Settings) (dist : R) (t : Top) : bool :=
  Rltb (arenaR s + 40) dist
  || Rleb (hp t) 0
  || (Rltb (hypot (vx t) (vy t)) 5 && Rltb (Rabs (vang t)) 0.2).

Definition set_alive (b : bool) (t : Top) : Top :=
  mkTop (id t) (label t) (color t) (x t) (y t) (vx t) (vy t)
        (ang t) (vang t) (r t) (hp t) b.

(** Second loop: wall collision and ring out, for one body. *)
Definition wall_one (s : Settings) (t : Top) : Top :=
  if alive t then
    let dist := hypot (x t) (y t) in
    let limit := arenaR s - r t - 4 in
    let t1 := if Rltb limit dist then wall_bounce s t else t in
    if ring_out s dist t1 then set_alive false t1 else t1
  else t.

(** Third loop: the test [d2 < rsum * rsum]. *)
Definition dist2 (a b : Top) : R :=
  (x b - x a) * (x b - x a) + (y b - y a) * (y b - y a).

Definition overlapping (a b : Top) : bool :=
  Rltb (dist2 a b) ((r a + r b) * (r a + r b)).

(** [Math.sqrt(Math.max(1e-6, d2))] *)
Definition center_dist (a b : Top) : R := sqrt (Rmax 1e-6 (dist2 a b)).

(** Third loop, the body of [if (d2 < rsum * rsum)], given the clamped
    distance [d] and the normal. *)
Definition collide_along (s : Settings) (a b : Top) (d nx ny : R) : Top * Top :=
  let rsum := r a + r b in
  let pen := rsum - d in
  let half := pen / 2 in
  let rvx := vx b - vx a in
  let rvy := vy b - vy a in
  let relN := rvx * nx + rvy * ny in
  let jimp := - (1 + COLL_RESTITUTION) * relN / 2 in
  let ix := jimp * nx in
  let iy := jimp * ny in
  let kick := (rvx * - ny + rvy * nx) * 0.01 in
  let impact := Rabs relN in
  let dmg := (impact * 0.04) * damage s in
  (mkTop (id a) (label a) (color a)
         (x a - nx * half) (y a - ny * half) (vx a - ix) (vy a - iy)
         (ang a) (vang a + kick) (r a) (hp a - dmg) (alive a),
   mkTop (id b) (label b) (color b)
         (x b + nx * half) (y b + ny * half) (vx b + ix) (vy b + iy)
         (ang b) (vang b - kick) (r b) (hp b - dmg) (alive b)).

(** [nx = dx / d], [ny = dy / d] *)
Definition normal_x (a b : Top) : R := (x b - x a) / center_dist a b.
Definition normal_y (a b : Top) : R := (y b - y a) / center_dist a b.

Definition collide (s : Settings) (a b : Top) : Top * Top :=
  collide_along s a b (center_dist a b) (normal_x a b) (normal_y a b).

(** Velocity of [b] relative to [a] along the direction [(nx, ny)]: the
    source's [relN]. *)
Definition rel_normal (a b : Top) (nx ny : R) : R :=
  (vx b - vx a) * nx + (vy b - vy a) * ny.

(** One iteration of the inner loop: bodies [i] and [j] of the array,
    updated in place. *)
Definition pair_at (s : Settings) (i j : nat) (ts : list Top) : list Top :=
  match ts !! i, ts !! j with
  | Some a, Some b =>
      if alive b then
        if overlapping a b then
          let '(a', b') := collide s a b in
          <[j := b']> (<[i := a']> ts)
        else ts
      else ts
  | _, _ => ts
  end.

(** [for (let j = i + 1; j < tops.length; j++)] *)
Definition pair_inner (s : Settings) (i : nat) (ts : list Top) : list Top :=
  fold_left (fun acc j => pair_at s i j acc)
            (seq (S i) (length ts - S i)) ts.

(** One iteration of the outer loop. *)
Definition pair_outer (s : Settings) (ts : list Top) (i : nat) : list Top :=
  match ts !! i with
  | Some a => if alive a then pair_inner s i ts else ts
  | None => ts
  end.

(** [for (let i = 0; i < tops.length; i++)] *)
Definition pair_pass (s : Settings) (ts : list Top) : list Top :=
  fold_left (pair_outer s) (seq 0 (length ts)) ts.

(** [alive[0]?.label || null]: the empty string is falsy. *)
Definition winner_of (al : list Top) : option string :=
  match al with
  | [] => None
  | t :: _ => if String.eqb (label t) "" then None else Some (label t)
  end.

(** [// Check winner] *)
Definition check_winner (sim : Sim) : Sim :=
  let al := List.filter alive (tops sim) in
  if (length al <=? 1)%nat then mkSim false (tops sim) (winner_of al)
  else sim.

Definition physicsStep (s : Settings) (dt : R) (sim : Sim) : Sim :=
  let ts := map (integrate_one s dt) (tops sim) in
  let ts := map (wall_one s) ts in
  let ts := pair_pass s ts in
  check_winner (mkSim (running sim) ts (winner sim)).

(** [n] physics steps in a row, as the [while (acc >= step)] loop of
    [tick] runs them. *)
Fixpoint steps (n : nat) (s : Settings) (dt : R) (sim : Sim) : Sim :=
  match n with
  | O => sim
  | S k => steps k s dt (physicsStep s dt sim)
  end.

(** ** The step with its divisions checked

    The same step, where a division whose divisor is zero and a square root
    whose argument is negative (the operations that give a non-finite
    number in exact arithmetic) stop the computation with [None].  The
    divisions by the literal 2 of the pairwise loop need no check. *)

Definition cdiv (a b : R) : option R :=
  if Req_dec_T b 0 then None else Some (a / b).

Definition csqrt (a : R) : option R :=
  if Rlt_dec a 0 then None else Some (sqrt a).

Definition wall_bounce_c (s : Settings) (t : Top) : option Top :=
  let dist := hypot (x t) (y t) in
  nx ← cdiv (x t) dist;
  ny ← cdiv (y t) dist;
  Some (wall_reflect s t dist nx ny).

Definition wall_one_c (s : Settings) (t : Top) : option Top :=
  if alive t then
    let dist := hypot (x t) (y t) in
    let limit := arenaR s - r t - 4 in
    t1 ← (if Rltb limit dist then wall_bounce_c s t else Some t);
    Some (if ring_out s dist t1 then set_alive false t1 else t1)
  else Some t.

Definition collide_c (s : Settings) (a b : Top) : option (Top * Top) :=
  d ← csqrt (Rmax 1e-6 (dist2 a b));
  nx ← cdiv (x b - x a) d;
  ny ← cdiv (y b - y a) d;
  Some (collide_along s a b d nx ny).

Definition pair_at_c (s : Settings) (i j : nat) (ts : list Top)
  : option (list Top) :=
  match ts !! i, ts !! j with
  | Some a, Some b =>
      if alive b then
        if overlapping a b then
          '(a', b') ← collide_c s a b;
          Some (<[j := b']> (<[i := a']> ts))
        else Some ts
      else Some ts
  | _, _ => Some ts
  end.

Definition pair_inner_c (s : Settings) (i : nat) (ts : list Top)
  : option (list Top) :=
  fold_left (fun acc j => acc ≫= pair_at_c s i j)
            (seq (S i) (length ts - S i)) (Some ts).

Definition pair_outer_c (s : Settings) (acc : option (list Top)) (i : nat)
  : option (list Top) :=
  ts ← acc;
  match ts !! i with
  | Some a => if alive a then pair_inner_c s i ts else Some ts
  | None => Some ts
  end.

Definition pair_pass_c (s : Settings) (ts : list Top) : option (list Top) :=
  fold_left (pair_outer_c s) (seq 0 (length ts)) (Some ts).

Definition physicsStep_c (s : Settings) (dt : R) (sim : Sim) : option Sim :=
  let ts := map (integrate_one s dt) (tops sim) in
  ts ← mapM (wall_one_c s) ts;
  ts ← pair_pass_c s ts;
  Some (check_winner (mkSim (running sim) ts (winner sim))).

(** ** The initializer as the specification words it

    Body [i] of a roster of [n] is built from the five consecutive numbers
    [5 i .. 5 i + 4] of the stream of the generator seeded with the
    settings' seed: angle jitter, radius fraction, speed, heading jitter,
    angular velocity. *)

Definition stream (s : Settings) (k : nat) : R :=
  uniform (Rng.draw (seed s) (N.of_nat k)).

Definition spec_angle (s : Settings) (n i : nat) : R :=
  INR i * (2 * PI / Rmax 1 (INR n)) + stream s (5 * i) * 0.2.

Definition spec_radial (s : Settings) (i : nat) : R :=
  let span := arenaR s - topR s - 6 in
  span * 0.85 + span * 0.15 * stream s (5 * i + 1).

Definition spec_speed (s : Settings) (i : nat) : R :=
  120 + 80 * stream s (5 * i + 2).

Definition spec_heading (s : Settings) (n i : nat) : R :=
  spec_angle s n i + PI + (stream s (5 * i + 3) - 0.5) * 0.6.

Definition spec_spin (s : Settings) (i : nat) : R :=
  (stream s (5 * i + 4) - 0.5) * 14.

Definition spec_body (s : Settings) (n i : nat) (m : Movie) : Top :=
  mkTop (m_id m) (m_label m) (m_color m)
        (cos (spec_angle s n i) * spec_radial s i)
        (sin (spec_angle s n i) * spec_radial s i)
        (cos (spec_heading s n i) * spec_speed s i)
        (sin (spec_heading s n i) * spec_speed s i)
        (spec_angle s n i) (spec_spin s i) (topR s) 100 true.

(** ** Relations between a body before and after an update *)

(** Identity, label, color and radius are the same. *)
Definition same_body (a b : Top) : Prop :=
  id b = id a /\ label b = label a /\ color b = color a /\ r b = r a.

(** The health of [b] is at most that of [a]. *)
Definition hp_le (a b : Top) : Prop := hp b <= hp a.

(** ** Example inputs *)

Definition demo_settings : Settings := mkSettings 250 0.15 0.2 1 26 1337.

Definition inception : Movie := mkMovie "k3v9q1a" "Inception" "#22c55e".
Definition matrix : Movie := mkMovie "p0x7m2c" "The Matrix" "#3b82f6".

(** A component with an empty roster, as after removing every movie. *)
Definition empty_component : Component :=
  mkComponent [] demo_settings (mkSim false [] None) SystemRandom.

(** A component fresh after mounting, and one that has already played a
    match to its end. *)
Definition fresh_component : Component :=
  mkComponent [inception; matrix] demo_settings (mkSim false [] None) SystemRandom.

Definition used_component : Component :=
  mkComponent [inception; matrix] demo_settings
              (mkSim false
                     [mkTop "k3v9q1a" "Inception" "#22c55e" 10 20 0 0 1 0 26 0 false]
                     (Some "The Matrix"%string))
              (Seeded 42).

(** A body 10 units past the wall limit of the default arena, moving
    outward. *)
Definition wall_top : Top :=
  mkTop "k3v9q1a" "Inception" "#22c55e" 230 0 50 10 0 3 26 100 true.

(** Two bodies whose centers are 0.0005 apart, the second approaching the
    first at 1 unit/s. *)
Definition near_a : Top :=
  mkTop "k3v9q1a" "Inception" "#22c55e" 0 0 0 0 0 3 26 100 true.
Definition near_b : Top :=
  mkTop "p0x7m2c" "The Matrix" "#3b82f6" 0.0005 0 (-1) 0 0 3 26 100 true.

(** Two bodies 30 apart, the second approaching the first at 40 units/s. *)
Definition far_a : Top :=
  mkTop "k3v9q1a" "Inception" "#22c55e" 0 0 0 0 0 3 26 100 true.
Definition far_b : Top :=
  mkTop "p0x7m2c" "The Matrix" "#3b82f6" 30 0 (-40) 0 0 3 26 100 true.

(** Two bodies of health 1 closing in on each other at 60 units/s each. *)
Definition clash_a : Top :=
  mkTop "k3v9q1a" "Inception" "#22c55e" (-10) 0 60 0 0 3 26 1 true.
Definition clash_b : Top :=
  mkTop "p0x7m2c" "The Matrix" "#3b82f6" 10 0 (-60) 0 0 3 26 1 true.

(** A body spinning in place at the center. *)
Definition spinner : Top :=
  mkTop "k3v9q1a" "Inception" "#22c55e" 0 0 0 0 0 3 26 100 true.

(** Settings whose arena is smaller than a body, outside the ranges of the
    sliders. *)
Definition cramped_settings : Settings := mkSettings 20 0.15 0.2 1 26 1337.

(** ** More controls ([pause], [reset], lines 119-120)

    [cancelAnimationFrame] and [draw] do not write the state modelled
    here. *)

Definition pause (c : Component) : Component := set_running false c.

Definition reset (c : Component) : Component := spawnTops (pause c).

(** ** The roster ([addMovie], [removeMovie], [canStart], lines 302-309) *)

Definition DEFAULT_COLORS : list string :=
  ["#22c55e"; "#3b82f6"; "#f59e0b"; "#ef4444"; "#a855f7"; "#14b8a6";
   "#eab308"; "#f97316"; "#06b6d4"; "#84cc16"; "#ec4899"; "#8b5cf6"]%string.

(** The fields of the "Add movie" form. *)
Record Form := mkForm { newLabel : string; newColor : string }.

(** [DEFAULT_COLORS[n % DEFAULT_COLORS.length]]; an index out of range
    would read [undefined]. *)
Definition color_at (n : nat) : option string :=
  DEFAULT_COLORS !! (n mod length DEFAULT_COLORS)%nat.

Section Roster.

(** [String.prototype.trim], a built-in of the language. *)
Variable trim : string -> string.

(** [addMovie()], where [fresh] is the string [uid()] returns for this
    call (it comes from [Math.random]).  The next color is read from the
    palette at the length the roster had before the call; [undefined] is
    written as the string of that name. *)
Definition addMovie (fresh : string) (ms : list Movie) (f : Form)
  : list Movie * Form :=
  let lbl := trim (newLabel f) in
  if String.eqb lbl "" then (ms, f)
  else
    (ms ++ [mkMovie fresh lbl (newColor f)],
     mkForm "" (default "undefined"%string (color_at (length ms)))).

End Roster.

(** [removeMovie(id)]: [prev.filter(m => m.id !== id)] *)
Definition removeMovie (i : string) (ms : list Movie) : list Movie :=
  List.filter (fun m => negb (String.eqb (m_id m) i)) ms.

(** [canStart] *)
Definition canStart (ms : list Movie) : bool := (2 <=? length ms)%nat.

(** ** Sums over the bodies *)

(** Sum of [mu] over the bodies of the array. *)
Definition total (mu : Top -> R) (ts : list Top) : R :=
  fold_right (fun t acc => mu t + acc) 0 ts.

(** Squared linear speed of a body: twice its kinetic energy, the masses
    being equal and taken as 1. *)
Definition speed2 (t : Top) : R := vx t * vx t + vy t * vy t.

(** Number of bodies alive. *)
Definition alive_count (ts : list Top) : nat := length (List.filter alive ts).

(** [b] has the liveness of [a], and is [a] itself when [a] is not alive. *)
Definition ghost (a b : Top) : Prop :=
  alive b = alive a /\ (alive a = false -> b = a).

(** [b] is [a] itself when [a] is not alive. *)
Definition still (a b : Top) : Prop := alive a = false -> b = a.

(** ** The first two loops in double precision

    The same lines 130-159 on IEEE binary64 numbers, for one body: where
    the model above idealises, this one rounds, overflows and produces NaN
    as the engine does.  [Math.hypot] is implementation-approximated, so it
    is a parameter. *)

Module Doubles.
Import PrimFloat.
Local Open Scope float_scope.
#[local] Set Warnings "-inexact-float".

Record TopD := mkTopD {
  id : string;
  label : string;
  color : string;
  x : float;
  y : float;
  vx : float;
  vy : float;
  ang : float;
  vang : float;
  r : float;
  hp : float;
  alive : bool
}.

Record SettingsD := mkSettingsD {
  arenaR : float;
  friction : float;
  spinFriction : float;
  damage : float;
  topR : float;
  seed : Z
}.

(** [Math.max(a, b)]: NaN if either is, else the larger. *)
Definition max (a b : float) : float :=
  if is_nan a || is_nan b then nan
  else if a <? b then b else a.

(** [1 / 120] *)
Definition FIXED_DT : float := 1 / 120.
Definition WALL_RESTITUTION : float := 0.85.

(** Lines 130-134. *)
Definition integrate_one (s : SettingsD) (dt : float) (t : TopD) : TopD :=
  if alive t then
    mkTopD (id t) (label t) (color t)
           (x t + vx t * dt) (y t + vy t * dt)
           (vx t * max 0 (1 - friction s * dt))
           (vy t * max 0 (1 - friction s * dt))
           (ang t + vang t * dt)
           (vang t * max 0 (1 - spinFriction s * dt))
           (r t) (hp t) true
  else t.

Section Hypot.

(** [Math.hypot] *)
Variable hypot : float -> float -> float.

(** Lines 136-159. *)
Definition wall_one (s : SettingsD) (t : TopD) : TopD :=
  if alive t then
    let dist := hypot (x t) (y t) in
    let limit := arenaR s - r t - 4 in
    let t1 :=
      if limit <? dist then
        let nx := x t / dist in
        let ny := y t / dist in
        let pen := dist - limit in
        let vn := vx t * nx + vy t * ny in
        let vtX := vx t - vn * nx in
        let vtY := vy t - vn * ny in
        let rvx := vtX - vn * nx * WALL_RESTITUTION in
        let rvy := vtY - vn * ny * WALL_RESTITUTION in
        let impact := abs vn in
        mkTopD (id t) (label t) (color t)
               (x t - nx * pen) (y t - ny * pen) rvx rvy
               (ang t) (vang t) (r t)
               (hp t - (impact * 0.03) * damage s) (alive t)
      else t in
    if (arenaR s + 40 <? dist)
       || (hp t1 <=? 0)
       || ((hypot (vx t1) (vy t1) <? 5) && (abs (vang t1) <? 0.2))
    then mkTopD (id t1) (label t1) (color t1) (x t1) (y t1) (vx t1) (vy t1)
                (ang t1) (vang t1) (r t1) (hp t1) false
    else t1
  else t.

(** The physics step on an array of one body: the pairwise loop has no
    pair to visit and the winner check writes no field of a body. *)
Definition step_one (s : SettingsD) (dt : float) (t : TopD) : TopD :=
  wall_one s (integrate_one s dt t).

End Hypot.



Definition default_settings : SettingsD := mkSettingsD 250 0.15 0.2 1 26 1337.

(** A body at rest at the center whose angle and spin are both the finite
    double [0x1.fdp+1023] (about 1.7878e308). *)
Definition spun_up : TopD :=
  mkTopD "k3v9q1a" "Inception" "#22c55e" 0 0 0 0
         0x1.fdp+1023 0x1.fdp+1023 26 100 true.

End Doubles.

(** * Facts *)

(** ** Facts about the generator *)

Section RngFacts.
Import Js Rng.
Local Open Scope Z_scope.

(** The first and third numerators for the default seed. *)
Example draw_1337_0 : draw 1337 0 = 792042790.
Proof. reflexivity. Qed.

Example draw_1337_2 : draw 1337 2 = 3480950701.
Proof. reflexivity. Qed.

Lemma ToUint32_range z : 0 <= ToUint32 z < two32.
Proof. unfold ToUint32, two32. apply Z.mod_pos_bound. lia. Qed.

Lemma ToUint32_mod z : ToUint32 (z mod two32) = ToUint32 z.
Proof. unfold ToUint32, two32. apply Z.mod_mod. lia. Qed.

Lemma ToInt32_mod z : ToInt32 (z mod two32) = ToInt32 z.
Proof.
  unfold ToInt32, two32, two31. f_equal.
  rewrite Z.add_mod_idemp_l by lia. reflexivity.
Qed.

Lemma ushr_0_range a : 0 <= ushr a 0 < two32.
Proof. unfold ushr. rewrite Z.shiftr_0_r. apply ToUint32_range. Qed.

(** The numerator returned by a call is a 32-bit unsigned integer, from
    every state. *)
Lemma mix_range t : 0 <= mix t < two32.
Proof. unfold mix. apply ushr_0_range. Qed.

(** The mixing reads the state only through the 32-bit conversions. *)
Lemma mix_mod t : mix (t mod two32) = mix t.
Proof.
  unfold mix, bxor, bor, ushr.
  rewrite !ToInt32_mod, !ToUint32_mod. reflexivity.
Qed.

Lemma round_double_exact z : Z.abs z <= two53 -> round_double z = z.
Proof.
  intros H. unfold round_double.
  destruct (Z.ltb_spec (Z.abs z) two53) as [Hlt | Hge]; [reflexivity |].
  assert (Hz : z = two53 \/ z = - two53) by lia.
  destruct Hz as [-> | ->]; vm_compute; reflexivity.
Qed.

Lemma state_after_succ seed k :
  state_after seed (N.succ k) = add (state_after seed k) increment.
Proof. unfold state_after. rewrite N.iter_succ. reflexivity. Qed.

Lemma spec_state_after_succ seed k :
  spec_state_after seed (N.succ k)
  = (spec_state_after seed k + increment) mod two32.
Proof. unfold spec_state_after. rewrite N.iter_succ. reflexivity. Qed.

(** While the running sum fits in 53 bits the additions are exact: the
    state is the seed plus [k] increments, not reduced modulo 2^32. *)
Lemma state_after_exact seed k :
  ToUint32 seed + Z.of_N k * increment <= two53 ->
  state_after seed k = ToUint32 seed + Z.of_N k * increment.
Proof.
  pose proof (ToUint32_range seed) as Hs.
  induction k as [| k IH] using N.peano_ind; intros Hk.
  - unfold state_after, mulberry32. simpl. lia.
  - rewrite state_after_succ, IH by (unfold increment in *; lia).
    unfold add. rewrite round_double_exact; unfold increment, two53 in *; lia.
Qed.

Lemma spec_state_after_closed seed k :
  spec_state_after seed k = (seed + Z.of_N k * increment) mod two32.
Proof.
  induction k as [| k IH] using N.peano_ind.
  - unfold spec_state_after. simpl. f_equal. lia.
  - rewrite spec_state_after_succ, IH.
    rewrite Z.add_mod_idemp_l by (unfold two32; lia).
    f_equal. lia.
Qed.

(** Over that range the closure returns what the 32-bit generator of the
    specification returns. *)
Lemma draw_spec_draw seed k :
  ToUint32 seed + (Z.of_N k + 1) * increment <= two53 ->
  draw seed k = spec_draw seed k.
Proof.
  intros Hk. pose proof (ToUint32_range seed) as Hs.
  unfold draw, spec_draw, next, spec_next. cbn [snd].
  rewrite state_after_exact by (unfold increment in *; lia).
  rewrite spec_state_after_closed.
  unfold add. rewrite round_double_exact by (unfold increment, two53 in *; lia).
  rewrite Z.add_mod_idemp_l by (unfold two32; lia).
  rewrite <- (mix_mod (ToUint32 seed + _ + _)).
  f_equal. unfold ToUint32.
  rewrite <- !Z.add_assoc, Z.add_mod_idemp_l by (unfold two32; lia).
  reflexivity.
Qed.

End RngFacts.

(** ** C2: the generator *)

Section GeneratorClaims.
Import Js Rng.

Lemma uniform_range n : (0 <= n < two32)%Z -> 0 <= uniform n < 1.
Proof.
  intros [H0 H1]. unfold uniform.
  apply IZR_le in H0. apply IZR_lt in H1. unfold two32 in H1. lra.
Qed.

(** Every number the closure returns lies in [0, 1), whatever its state. *)
Lemma next_unit_interval t : 0 <= uniform (snd (next t)) < 1.
Proof. apply uniform_range. unfold next. cbn [snd]. apply mix_range. Qed.

Lemma draw_unit_interval sd k : 0 <= uniform (draw sd k) < 1.
Proof. unfold draw. apply next_unit_interval. Qed.

(** The default seed reaches a state above 2^53 after 4917759 calls; up to
    there the additions were exact. *)
Lemma state_1337_before_rounding :
  state_after 1337 4917758 = (1337 + 4917758 * increment)%Z.
Proof.
  apply (state_after_exact 1337 4917758). vm_compute. discriminate.
Qed.

(** C2 (the closure against the 32-bit generator of the specification).
    The state [t] of the closure is never wrapped to 32 bits: [t += 0x6D2B79F5]
    is a double addition, and once the sum passes 2^53 it is rounded.  With
    the default seed 1337, call number 4917760 (index 4917759 from 0) adds
    the increment to 9007199260974404; the odd sum 9007201092540217 is
    rounded to 9007201092540216, and the call returns numerator 1148761939
    where a generator whose 32-bit state advances by the increment returns
    1407222052. *)
Theorem mulberry32_state_not_wrapped :
  draw 1337 4917759 = 1148761939%Z /\ spec_draw 1337 4917759 = 1407222052%Z.
Proof.
  split.
  - unfold draw. change 4917759%N with (N.succ 4917758).
    rewrite state_after_succ, state_1337_before_rounding.
    vm_compute. reflexivity.
  - unfold spec_draw. rewrite spec_state_after_closed.
    vm_compute. reflexivity.
Qed.

End GeneratorClaims.

(** ** C5 and C1: starting a match *)

Section Start.

(** C5, as stated, fails: with an empty roster [start] completes normally
    and leaves the component exactly as it was; nothing is signalled. *)
Lemma start_empty_roster_silent :
  start empty_component = (Normal, empty_component)
  /\ ~ (exists reason, fst (start empty_component) = Throw reason).
Proof.
  split; [reflexivity |].
  intros [reason H]. cbn in H. discriminate.
Qed.

(** C5 (amended): for a roster of fewer than 2 participants [start] returns
    at its guard: it completes normally and changes nothing (bodies,
    running flag, winner and generator are those of before the call). *)
Theorem start_short_roster_noop c :
  (length (movies c) < 2)%nat -> start c = (Normal, c).
Proof.
  intros H. unfold start.
  destruct (Nat.ltb_spec (length (movies c)) 2) as [_ | Hge]; [reflexivity | lia].
Qed.

Lemma start_short_roster_noop_witness :
  (length (movies empty_component) < 2)%nat
  /\ start empty_component = (Normal, empty_component).
Proof.
  split; [cbn; lia | apply (start_short_roster_noop empty_component); cbn; lia].
Defined.

Lemma spawnTops_sim c1 c2 :
  movies c1 = movies c2 -> settings c1 = settings c2 ->
  tops (simRef (spawnTops c1)) = tops (simRef (spawnTops c2))
  /\ winner (simRef (spawnTops c1)) = winner (simRef (spawnTops c2))
  /\ rngRef (spawnTops c1) = rngRef (spawnTops c2).
Proof.
  intros Hm Hs. unfold spawnTops. rewrite Hm, Hs.
  destruct (spawn_from _ _ _ _ _) as [arr t]. cbn. auto.
Qed.

Lemma start_sim c1 c2 :
  movies c1 = movies c2 -> settings c1 = settings c2 ->
  (2 <= length (movies c1))%nat ->
  simRef (snd (start c1)) = simRef (snd (start c2))
  /\ rngRef (snd (start c1)) = rngRef (snd (start c2)).
Proof.
  intros Hm Hs Hn. unfold start. rewrite <- Hm.
  destruct (Nat.ltb_spec (length (movies c1)) 2) as [Hlt | _]; [lia |].
  destruct (spawnTops_sim c1 c2 Hm Hs) as (Ht & Hw & Hr).
  cbn. rewrite Ht, Hw, Hr. auto.
Qed.

(** C1: two components with the same roster (of at least 2) and the same
    settings, whatever bodies, winner, running flag and generator they held
    before, are in the same simulation state after [start] and after every
    number [n] of physics steps with the same [dt]: same bodies (all
    fields), same winner, same running flag. *)
Theorem same_seed_same_match c1 c2 dt n :
  movies c1 = movies c2 -> settings c1 = settings c2 ->
  (2 <= length (movies c1))%nat ->
  steps n (settings c1) dt (simRef (snd (start c1)))
  = steps n (settings c2) dt (simRef (snd (start c2))).
Proof.
  intros Hm Hs Hn.
  destruct (start_sim c1 c2 Hm Hs Hn) as [-> _]. rewrite Hs. reflexivity.
Qed.

Lemma same_seed_same_match_witness :
  steps 240 demo_settings FIXED_DT (simRef (snd (start fresh_component)))
  = steps 240 demo_settings FIXED_DT (simRef (snd (start used_component))).
Proof.
  apply (same_seed_same_match fresh_component used_component FIXED_DT 240);
    [reflexivity | reflexivity | cbn; lia].
Defined.

End Start.

(** ** Real-number helpers *)

(** Reduce the projections of explicit records and pairs, leaving the real
    constants as written. *)
Ltac fields :=
  cbn [id label color x y vx vy ang vang r hp alive
       arenaR friction spinFriction damage topR seed
       running tops winner fst snd].

Section Numbers.

Lemma Rltb_spec a b : reflect (a < b) (Rltb a b).
Proof. unfold Rltb. destruct (Rlt_dec a b); constructor; assumption. Qed.

Lemma Rleb_spec a b : reflect (a <= b) (Rleb a b).
Proof. unfold Rleb. destruct (Rle_dec a b); constructor; assumption. Qed.

Lemma Rltb_true a b : a < b -> Rltb a b = true.
Proof. intros H. destruct (Rltb_spec a b); [reflexivity | contradiction]. Qed.

Lemma Rltb_false a b : b <= a -> Rltb a b = false.
Proof. intros H. destruct (Rltb_spec a b); [lra | reflexivity]. Qed.

Lemma Rleb_true a b : a <= b -> Rleb a b = true.
Proof. intros H. destruct (Rleb_spec a b); [reflexivity | contradiction]. Qed.

Lemma Rleb_false a b : b < a -> Rleb a b = false.
Proof. intros H. destruct (Rleb_spec a b); [lra | reflexivity]. Qed.

Lemma sum_squares_nonneg a b : 0 <= a * a + b * b.
Proof. nra. Qed.

Lemma hypot_nonneg a b : 0 <= hypot a b.
Proof. apply sqrt_pos. Qed.

Lemma hypot_square a b : hypot a b * hypot a b = a * a + b * b.
Proof. unfold hypot. apply sqrt_sqrt, sum_squares_nonneg. Qed.

(** A vector scaled by a non-negative factor. *)
Lemma hypot_scale k a b : 0 <= k -> hypot (k * a) (k * b) = k * hypot a b.
Proof.
  intros Hk. unfold hypot.
  replace (k * a * (k * a) + k * b * (k * b)) with ((k * k) * (a * a + b * b)) by ring.
  rewrite sqrt_mult_alt by nra. rewrite sqrt_square by assumption. reflexivity.
Qed.

Lemma hypot_unit a b :
  0 < hypot a b ->
  (a / hypot a b) * (a / hypot a b) + (b / hypot a b) * (b / hypot a b) = 1.
Proof.
  intros Hd. pose proof (hypot_square a b) as Hsq.
  field_simplify_eq; [| lra]. nra.
Qed.

Lemma hypot_of_unit a b : a * a + b * b = 1 -> hypot a b = 1.
Proof. intros H. unfold hypot. rewrite H. apply sqrt_1. Qed.

Lemma hypot_polar a rad : hypot (cos a * rad) (sin a * rad) = Rabs rad.
Proof.
  unfold hypot.
  replace (cos a * rad * (cos a * rad) + sin a * rad * (sin a * rad))
    with ((Rsqr (sin a) + Rsqr (cos a)) * Rsqr rad) by (unfold Rsqr; ring).
  rewrite sin2_cos2, Rmult_1_l. apply sqrt_Rsqr_abs.
Qed.

End Numbers.

(** ** C8: the wall pass *)

Section WallPass.

Lemma wall_one_bounced s t :
  alive t = true ->
  arenaR s - r t - 4 < hypot (x t) (y t) ->
  let t1 := wall_bounce s t in
  wall_one s t
  = if ring_out s (hypot (x t) (y t)) t1 then set_alive false t1 else t1.
Proof.
  intros Ha Hd. unfold wall_one. rewrite Ha, Rltb_true by assumption. reflexivity.
Qed.

Lemma wall_one_position_velocity s t :
  alive t = true ->
  arenaR s - r t - 4 < hypot (x t) (y t) ->
  x (wall_one s t) = x (wall_bounce s t)
  /\ y (wall_one s t) = y (wall_bounce s t)
  /\ vx (wall_one s t) = vx (wall_bounce s t)
  /\ vy (wall_one s t) = vy (wall_bounce s t).
Proof.
  intros Ha Hd. rewrite wall_one_bounced by assumption.
  cbv zeta. destruct (ring_out _ _ _); cbn; auto.
Qed.

(** C8: in the wall pass, a body that is alive and farther from the center
    than [arenaR - r - 4] (and not at the center itself, where no normal
    exists) is moved along the inward unit normal by exactly the overlap
    [dist - limit], a correction of its position only; its velocity keeps
    its tangential part and gets [- WALL_RESTITUTION] times its normal part;
    and the wall constant differs from the pairwise one. *)
Theorem wall_pass_pushes_back_and_reflects s ts i t :
  ts !! i = Some t ->
  alive t = true ->
  arenaR s - r t - 4 < hypot (x t) (y t) ->
  0 < hypot (x t) (y t) ->
  let dist := hypot (x t) (y t) in
  let overlap := dist - (arenaR s - r t - 4) in
  let nx := x t / dist in
  let ny := y t / dist in
  let vn := vx t * nx + vy t * ny in
  exists t',
    map (wall_one s) ts !! i = Some t'
    /\ hypot nx ny = 1
    /\ x t' = x t - nx * overlap
    /\ y t' = y t - ny * overlap
    /\ hypot (x t - x t') (y t - y t') = overlap
    /\ vx t' = (vx t - vn * nx) + - WALL_RESTITUTION * (vn * nx)
    /\ vy t' = (vy t - vn * ny) + - WALL_RESTITUTION * (vn * ny)
    /\ vx t' * nx + vy t' * ny = - WALL_RESTITUTION * vn
    /\ WALL_RESTITUTION <> COLL_RESTITUTION.
Proof.
  intros Hi Ha Hd Hpos dist overlap nx ny vn.
  exists (wall_one s t).
  destruct (wall_one_position_velocity s t Ha Hd) as (Hx & Hy & Hvx & Hvy).
  assert (Hunit : nx * nx + ny * ny = 1) by (apply hypot_unit; assumption).
  split; [rewrite list_lookup_fmap, Hi; reflexivity |].
  split; [apply hypot_of_unit; assumption |].
  rewrite Hx, Hy, Hvx, Hvy. unfold wall_bounce, wall_reflect. cbn.
  fold dist nx ny vn overlap.
  repeat split; try ring.
  - replace (x t - (x t - nx * overlap)) with (overlap * nx) by ring.
    replace (y t - (y t - ny * overlap)) with (overlap * ny) by ring.
    rewrite hypot_scale by (unfold overlap, dist; lra).
    rewrite (hypot_of_unit nx ny Hunit). ring.
  - unfold vn at 1 2.
    transitivity (vn - (1 + WALL_RESTITUTION) * vn * (nx * nx + ny * ny));
      [unfold vn; ring | rewrite Hunit; ring].
  - unfold WALL_RESTITUTION, COLL_RESTITUTION. lra.
Qed.

End WallPass.

Lemma hypot_axis a : 0 <= a -> hypot a 0 = a.
Proof.
  intros Ha. unfold hypot.
  replace (a * a + 0 * 0) with (a * a) by ring. apply sqrt_square, Ha.
Qed.

Lemma wall_top_dist : hypot (x wall_top) (y wall_top) = 230.
Proof. cbn. apply hypot_axis. lra. Qed.

Lemma wall_pass_pushes_back_and_reflects_witness :
  exists t',
    map (wall_one demo_settings) [wall_top] !! 0%nat = Some t'
    /\ x t' = x wall_top - (x wall_top / 230) * (230 - (250 - 26 - 4))
    /\ vx t' * (x wall_top / 230) + vy t' * (y wall_top / 230)
       = - WALL_RESTITUTION * (vx wall_top * (x wall_top / 230)
                               + vy wall_top * (y wall_top / 230)).
Proof.
  destruct (wall_pass_pushes_back_and_reflects demo_settings [wall_top] 0 wall_top)
    as (t' & Hl & _ & Hx & _ & _ & _ & _ & Hvn & _).
  - reflexivity.
  - reflexivity.
  - rewrite wall_top_dist. cbn. lra.
  - rewrite wall_top_dist. lra.
  - rewrite wall_top_dist in Hx, Hvn. exists t'. auto.
Defined.

(** ** C6: the pairwise impulse *)

Section PairImpulse.

Lemma center_dist_pos a b : 0 < center_dist a b.
Proof.
  unfold center_dist. apply sqrt_lt_R0.
  pose proof (Rmax_l 1e-6 (dist2 a b)). lra.
Qed.

Lemma center_dist_unclamped a b :
  1e-6 <= dist2 a b ->
  center_dist a b = hypot (x b - x a) (y b - y a).
Proof.
  intros H. unfold center_dist. rewrite Rmax_right by assumption. reflexivity.
Qed.

Lemma normal_unit a b :
  1e-6 <= dist2 a b ->
  normal_x a b * normal_x a b + normal_y a b * normal_y a b = 1.
Proof.
  intros H. pose proof (center_dist_pos a b) as Hpos.
  unfold normal_x, normal_y. rewrite center_dist_unclamped in * by assumption.
  apply hypot_unit. assumption.
Qed.

(** What the impulse does to the relative normal velocity, for any
    direction [(nx, ny)] of squared length [q]. *)
Lemma impulse_rel_normal s a b d nx ny :
  let a' := fst (collide_along s a b d nx ny) in
  let b' := snd (collide_along s a b d nx ny) in
  rel_normal a' b' nx ny
  = (1 - (1 + COLL_RESTITUTION) * (nx * nx + ny * ny)) * rel_normal a b nx ny.
Proof. unfold collide_along, rel_normal. cbn. field. Qed.

Lemma pair_at_collides s i j ts a b :
  ts !! i = Some a -> ts !! j = Some b -> i <> j ->
  alive b = true -> overlapping a b = true ->
  pair_at s i j ts !! i = Some (fst (collide s a b))
  /\ pair_at s i j ts !! j = Some (snd (collide s a b)).
Proof.
  intros Hi Hj Hne Hb Hov. unfold pair_at. rewrite Hi, Hj, Hb, Hov.
  destruct (collide s a b) as [a' b'] eqn:Hc. cbn.
  apply lookup_lt_Some in Hi as Hli. apply lookup_lt_Some in Hj as Hlj.
  split.
  - rewrite list_lookup_insert_ne by congruence.
    apply list_lookup_insert_eq. assumption.
  - apply list_lookup_insert_eq. rewrite length_insert. assumption.
Qed.

(** C6, as stated, fails for two overlapping bodies whose centers are
    closer than 0.001: the clamp [Math.max(1e-6, d2)] makes the "normal"
    shorter than a unit vector ((0.5, 0) here), and the relative normal
    speed goes from 0.5 to 0.275, not to 0.8 * 0.5; measured along the true
    unit normal (1, 0) it goes from 1 to 0.55. *)
Lemma pair_impulse_near_coincident :
  let a' := fst (collide demo_settings near_a near_b) in
  let b' := snd (collide demo_settings near_a near_b) in
  let nx := normal_x near_a near_b in
  let ny := normal_y near_a near_b in
  alive near_a = true /\ alive near_b = true
  /\ overlapping near_a near_b = true
  /\ Rabs (rel_normal a' b' nx ny)
     <> COLL_RESTITUTION * Rabs (rel_normal near_a near_b nx ny)
  /\ Rabs (rel_normal a' b' 1 0)
     <> COLL_RESTITUTION * Rabs (rel_normal near_a near_b 1 0).
Proof.
  assert (Hd : center_dist near_a near_b = 0.001).
  { unfold center_dist, dist2, near_a, near_b. fields.
    rewrite Rmax_left by lra.
    replace 1e-6 with (0.001 * 0.001) by lra. apply sqrt_square. lra. }
  assert (Hnx : normal_x near_a near_b = 0.5).
  { unfold normal_x. rewrite Hd. unfold near_a, near_b. fields. lra. }
  assert (Hny : normal_y near_a near_b = 0).
  { unfold normal_y. rewrite Hd. unfold near_a, near_b. fields. lra. }
  assert (Hpre : rel_normal near_a near_b 0.5 0 = - 0.5).
  { unfold rel_normal, near_a, near_b. fields. lra. }
  assert (Hpre1 : rel_normal near_a near_b 1 0 = - 1).
  { unfold rel_normal, near_a, near_b. fields. lra. }
  cbv zeta. unfold collide. rewrite Hnx, Hny, Hd.
  rewrite impulse_rel_normal, Hpre, Hpre1.
  repeat split.
  - unfold overlapping, dist2, near_a, near_b. fields. apply Rltb_true. lra.
  - unfold COLL_RESTITUTION.
    replace ((1 - (1 + 0.8) * (0.5 * 0.5 + 0 * 0)) * - 0.5) with (- 0.275) by lra.
    rewrite !Rabs_left by lra. lra.
  - unfold collide_along, rel_normal, near_a, near_b, demo_settings, COLL_RESTITUTION.
    fields.
    match goal with |- Rabs ?e <> _ => replace e with (- 0.55) by lra end.
    rewrite !Rabs_left by lra. lra.
Qed.

(** C6 (amended): for two distinct bodies of the array resolved as
    colliding whose squared center distance is at least 1e-6 (so that the
    clamp is inactive and the normal is a unit vector), the impulse
    [-(1 + e) / 2 * relN] is applied along the normal with opposite signs to
    the two bodies, and afterwards the relative normal velocity is [- e]
    times what it was: the relative normal speed is [e] times the speed
    before, with [e = COLL_RESTITUTION]. *)
Theorem pair_impulse_restitution s i j ts a b :
  ts !! i = Some a -> ts !! j = Some b -> i <> j ->
  alive a = true -> alive b = true -> overlapping a b = true ->
  1e-6 <= dist2 a b ->
  let nx := normal_x a b in
  let ny := normal_y a b in
  let jimp := - (1 + COLL_RESTITUTION) * rel_normal a b nx ny / 2 in
  exists a' b',
    pair_at s i j ts !! i = Some a'
    /\ pair_at s i j ts !! j = Some b'
    /\ vx a' = vx a - jimp * nx /\ vy a' = vy a - jimp * ny
    /\ vx b' = vx b + jimp * nx /\ vy b' = vy b + jimp * ny
    /\ rel_normal a' b' nx ny = - COLL_RESTITUTION * rel_normal a b nx ny
    /\ Rabs (rel_normal a' b' nx ny)
       = COLL_RESTITUTION * Rabs (rel_normal a b nx ny).
Proof.
  intros Hi Hj Hne Ha Hb Hov Hd nx ny jimp.
  destruct (pair_at_collides s i j ts a b Hi Hj Hne Hb Hov) as [Hi' Hj'].
  exists (fst (collide s a b)), (snd (collide s a b)).
  assert (Hrel : rel_normal (fst (collide s a b)) (snd (collide s a b)) nx ny
                 = - COLL_RESTITUTION * rel_normal a b nx ny).
  { unfold collide. fold nx ny. rewrite impulse_rel_normal.
    unfold nx, ny. rewrite (normal_unit a b Hd). ring. }
  repeat split; try assumption; try reflexivity.
  rewrite Hrel, Rabs_mult, Rabs_Ropp.
  rewrite (Rabs_pos_eq COLL_RESTITUTION) by (unfold COLL_RESTITUTION; lra).
  reflexivity.
Qed.

Lemma pair_impulse_restitution_witness :
  1e-6 <= dist2 far_a far_b
  /\ exists a' b',
       pair_at demo_settings 0 1 [far_a; far_b] !! 0%nat = Some a'
       /\ pair_at demo_settings 0 1 [far_a; far_b] !! 1%nat = Some b'
       /\ Rabs (rel_normal a' b' (normal_x far_a far_b) (normal_y far_a far_b))
          = COLL_RESTITUTION
            * Rabs (rel_normal far_a far_b (normal_x far_a far_b) (normal_y far_a far_b)).
Proof.
  assert (Hd : 1e-6 <= dist2 far_a far_b).
  { unfold dist2, far_a, far_b. fields. lra. }
  split; [exact Hd |].
  destruct (pair_impulse_restitution demo_settings 0 1 [far_a; far_b] far_a far_b)
    as (a' & b' & H0 & H1 & _ & _ & _ & _ & _ & Habs).
  - reflexivity.
  - reflexivity.
  - discriminate.
  - reflexivity.
  - reflexivity.
  - unfold overlapping, dist2, far_a, far_b. fields. apply Rltb_true. lra.
  - exact Hd.
  - exists a', b'. auto.
Defined.

End PairImpulse.

(** ** Relations kept by the three loops *)

Section LoopInvariant.

Variable s : Settings.
Variable P : Top -> Top -> Prop.
Hypothesis P_refl : forall t, P t t.
Hypothesis P_trans : forall a b c, P a b -> P b c -> P a c.
Hypothesis P_collide :
  forall a b, P a (fst (collide s a b)) /\ P b (snd (collide s a b)).

Lemma rel_refl (ts : list Top) : Forall2 P ts ts.
Proof. induction ts; constructor; auto. Qed.

Lemma rel_trans (l1 l2 l3 : list Top) :
  Forall2 P l1 l2 -> Forall2 P l2 l3 -> Forall2 P l1 l3.
Proof.
  intros H12. revert l3. induction H12; intros l3 H23; inversion H23; subst;
    constructor; eauto.
Qed.

Lemma rel_map (f : Top -> Top) (ts : list Top) :
  (forall t, P t (f t)) -> Forall2 P ts (map f ts).
Proof. intros Hf. induction ts; cbn; constructor; auto. Qed.

Lemma rel_insert (ts : list Top) i a a' :
  ts !! i = Some a -> P a a' -> Forall2 P ts (<[i := a']> ts).
Proof.
  intros Hi Ha.
  rewrite <- (list_insert_id ts i a Hi) at 1.
  apply Forall2_insert; [apply rel_refl | assumption].
Qed.

Lemma pair_at_rel i j (ts : list Top) :
  i <> j -> Forall2 P ts (pair_at s i j ts).
Proof.
  intros Hne. unfold pair_at.
  destruct (ts !! i) as [a |] eqn:Hi; [| apply rel_refl].
  destruct (ts !! j) as [b |] eqn:Hj; [| apply rel_refl].
  destruct (alive b); [| apply rel_refl].
  destruct (overlapping a b); [| apply rel_refl].
  destruct (P_collide a b) as [Ha Hb].
  destruct (collide s a b) as [a' b']. cbn in Ha, Hb.
  eapply rel_trans; [apply (rel_insert ts i a a' Hi Ha) |].
  apply (rel_insert _ j b b'); [| assumption].
  rewrite list_lookup_insert_ne by assumption. assumption.
Qed.

Lemma fold_rel (f : list Top -> nat -> list Top) (js : list nat) :
  (forall ts j, In j js -> Forall2 P ts (f ts j)) ->
  forall ts, Forall2 P ts (fold_left f js ts).
Proof.
  induction js as [| j js IH]; intros Hf ts; cbn.
  - apply rel_refl.
  - eapply rel_trans; [apply (Hf ts j); left; reflexivity |].
    apply IH. intros ts' j' Hj'. apply Hf. right. assumption.
Qed.

Lemma pair_inner_rel i (ts : list Top) : Forall2 P ts (pair_inner s i ts).
Proof.
  unfold pair_inner. apply fold_rel.
  intros ts' j Hj. apply pair_at_rel. apply in_seq in Hj. lia.
Qed.

Lemma pair_outer_rel (ts : list Top) i : Forall2 P ts (pair_outer s ts i).
Proof.
  unfold pair_outer. destruct (ts !! i) as [a |]; [| apply rel_refl].
  destruct (alive a); [apply pair_inner_rel | apply rel_refl].
Qed.

Lemma pair_pass_rel (ts : list Top) : Forall2 P ts (pair_pass s ts).
Proof.
  unfold pair_pass. apply fold_rel. intros ts' i _. apply pair_outer_rel.
Qed.

(** A relation that the integration and the wall loop keep as well holds
    between the bodies before and after a whole step. *)
Lemma physicsStep_rel dt sim :
  (forall t, P t (integrate_one s dt t)) ->
  (forall t, P t (wall_one s t)) ->
  Forall2 P (tops sim) (tops (physicsStep s dt sim)).
Proof.
  intros Hint Hwall.
  assert (Htops : tops (physicsStep s dt sim)
                  = pair_pass s (map (wall_one s) (map (integrate_one s dt) (tops sim)))).
  { unfold physicsStep, check_winner. cbn.
    destruct (length _ <=? 1)%nat; reflexivity. }
  rewrite Htops.
  eapply rel_trans; [apply rel_map, Hint |].
  eapply rel_trans; [apply rel_map, Hwall |].
  apply pair_pass_rel.
Qed.

End LoopInvariant.

Lemma physicsStep_tops s dt sim :
  tops (physicsStep s dt sim)
  = pair_pass s (map (wall_one s) (map (integrate_one s dt) (tops sim))).
Proof.
  unfold physicsStep, check_winner. cbn.
  destruct (length _ <=? 1)%nat; reflexivity.
Qed.

Lemma physicsStep_same_body s dt sim :
  Forall2 same_body (tops sim) (tops (physicsStep s dt sim)).
Proof.
  apply physicsStep_rel; unfold same_body.
  - intros t. repeat split.
  - intros a b c (? & ? & ? & ?) (? & ? & ? & ?). repeat split; congruence.
  - intros a b. unfold collide, collide_along. cbn. repeat split.
  - intros t. unfold integrate_one. destruct (alive t); repeat split.
  - intros t. unfold wall_one. destruct (alive t); [| repeat split].
    destruct (Rltb _ _); destruct (ring_out _ _ _); repeat split.
Qed.

(** ** C9: health *)

Section Health.

Lemma wall_one_hp s t : 0 <= damage s -> hp (wall_one s t) <= hp t.
Proof.
  intros Hdmg. unfold wall_one. destruct (alive t); [| lra].
  assert (Hb : hp (wall_bounce s t) <= hp t).
  { unfold wall_bounce, wall_reflect. cbn.
    match goal with |- _ - Rabs ?v * _ * _ <= _ => pose proof (Rabs_pos v) end.
    nra. }
  destruct (Rltb _ _); destruct (ring_out _ _ _); unfold set_alive; fields; lra.
Qed.

Lemma collide_hp s a b :
  0 <= damage s ->
  hp (fst (collide s a b)) <= hp a /\ hp (snd (collide s a b)) <= hp b.
Proof.
  intros Hdmg. unfold collide, collide_along. cbn.
  match goal with |- _ - Rabs ?v * _ * _ <= _ /\ _ => pose proof (Rabs_pos v) end.
  split; nra.
Qed.

End Health.

(** ** C4 and C3: elimination and the winner *)

Section Elimination.

Lemma ring_out_true s dist t :
  ring_out s dist t = true
  <-> arenaR s + 40 < dist
      \/ hp t <= 0
      \/ (hypot (vx t) (vy t) < 5 /\ Rabs (vang t) < 0.2).
Proof.
  unfold ring_out. rewrite !orb_true_iff, andb_true_iff.
  destruct (Rltb_spec (arenaR s + 40) dist), (Rleb_spec (hp t) 0),
    (Rltb_spec (hypot (vx t) (vy t)) 5), (Rltb_spec (Rabs (vang t)) 0.2);
    intuition congruence.
Qed.

(** The pairwise loop and the winner check never write [alive]: after a
    step, it is what the wall loop left. *)
Lemma physicsStep_alive s dt sim i t :
  tops sim !! i = Some t ->
  exists t',
    tops (physicsStep s dt sim) !! i = Some t'
    /\ alive t' = alive (wall_one s (integrate_one s dt t)).
Proof.
  intros Hi. rewrite physicsStep_tops.
  set (ws := map (wall_one s) (map (integrate_one s dt) (tops sim))).
  assert (Hw : ws !! i = Some (wall_one s (integrate_one s dt t))).
  { unfold ws. rewrite !list_lookup_fmap, Hi. reflexivity. }
  assert (Hrel : Forall2 (fun a b => alive b = alive a) ws (pair_pass s ws)).
  { apply pair_pass_rel.
    - reflexivity.
    - intros a b c. congruence.
    - intros a b. unfold collide, collide_along. cbn. auto. }
  destruct (Forall2_lookup_l _ _ _ _ _ Hrel Hw) as (t' & Hi' & Ha).
  exists t'. auto.
Qed.

(** *** The step on one and on two bodies *)

Lemma wall_one_inside s t :
  alive t = true ->
  hypot (x t) (y t) <= arenaR s - r t - 4 ->
  ring_out s (hypot (x t) (y t)) t = false ->
  wall_one s t = t.
Proof.
  intros Ha Hd Hr. unfold wall_one.
  rewrite Ha, Rltb_false by assumption. rewrite Hr. reflexivity.
Qed.

Lemma pair_pass_single s t : pair_pass s [t] = [t].
Proof.
  unfold pair_pass, pair_outer, pair_inner. cbn.
  destruct (alive t); reflexivity.
Qed.

Lemma pair_pass_two s a b :
  alive a = true -> alive b = true -> overlapping a b = true ->
  pair_pass s [a; b] = [fst (collide s a b); snd (collide s a b)].
Proof.
  intros Ha Hb Hov.
  assert (Hb' : alive (snd (collide s a b)) = true).
  { unfold collide, collide_along. fields. assumption. }
  unfold pair_pass. cbn [length seq fold_left].
  assert (H0 : pair_outer s [a; b] 0 = [fst (collide s a b); snd (collide s a b)]).
  { unfold pair_outer, pair_inner. cbn [lookup list_lookup length seq fold_left Nat.sub].
    rewrite Ha. unfold pair_at. cbn [lookup list_lookup]. rewrite Hb, Hov.
    destruct (collide s a b) as [a' b']. reflexivity. }
  rewrite H0. unfold pair_outer, pair_inner.
  cbn [lookup list_lookup length seq fold_left Nat.sub].
  rewrite Hb'. reflexivity.
Qed.

(** The two closing bodies after integration over [FIXED_DT]. *)
Lemma clash_a_integrated :
  integrate_one demo_settings FIXED_DT clash_a
  = mkTop "k3v9q1a" "Inception" "#22c55e" (-9.5) 0 59.925 0 0.025 2.995 26 1 true.
Proof.
  unfold integrate_one, clash_a, demo_settings, FIXED_DT. fields.
  rewrite !Rmax_right by lra. f_equal; lra.
Qed.

Lemma clash_b_integrated :
  integrate_one demo_settings FIXED_DT clash_b
  = mkTop "p0x7m2c" "The Matrix" "#3b82f6" 9.5 0 (-59.925) 0 0.025 2.995 26 1 true.
Proof.
  unfold integrate_one, clash_b, demo_settings, FIXED_DT. fields.
  rewrite !Rmax_right by lra. f_equal; lra.
Qed.

Lemma hypot_axis_abs a : hypot a 0 = Rabs a.
Proof.
  unfold hypot. replace (a * a + 0 * 0) with (Rsqr a) by (unfold Rsqr; ring).
  apply sqrt_Rsqr_abs.
Qed.

(** C4 (amended): elimination is evaluated inside the wall loop, body by
    body, before the pairwise loop, which never changes [alive].  A body
    alive before the step is not alive after it exactly when, for its state
    [u] after integration and [w] after its own wall bounce (if any): the
    distance of [u] from the center exceeds [arenaR + 40], or the health of
    [w] is [<= 0], or the linear speed of [w] is below 5 and its angular
    speed below 0.2 (both).  A body not alive before stays so. *)
Theorem elimination_in_wall_loop s dt sim i t :
  tops sim !! i = Some t ->
  let u := integrate_one s dt t in
  let dist := hypot (x u) (y u) in
  let w := if Rltb (arenaR s - r u - 4) dist then wall_bounce s u else u in
  exists t',
    tops (physicsStep s dt sim) !! i = Some t'
    /\ (alive t = true ->
        (alive t' = false
         <-> arenaR s + 40 < dist
             \/ hp w <= 0
             \/ (hypot (vx w) (vy w) < 5 /\ Rabs (vang w) < 0.2)))
    /\ (alive t = false -> alive t' = false).
Proof.
  intros Hi u dist w.
  destruct (physicsStep_alive s dt sim i t Hi) as (t' & Hi' & Ha).
  exists t'. split; [assumption |]. fold u in Ha. rewrite Ha.
  assert (Hu : alive u = alive t).
  { unfold u, integrate_one. destruct (alive t) eqn:E; [reflexivity | assumption]. }
  unfold wall_one. fold dist w. rewrite Hu. split.
  - intros Ht. rewrite Ht. rewrite <- ring_out_true.
    assert (Hw : alive w = true).
    { unfold w. destruct (Rltb _ _); [| congruence].
      unfold wall_bounce, wall_reflect. fields. congruence. }
    destruct (ring_out s dist w); unfold set_alive; fields.
    + tauto.
    + rewrite Hw. split; discriminate.
  - intros Ht. rewrite Ht. congruence.
Qed.

(** C4, as stated, fails: two alive bodies of health 1 meet in the pairwise
    loop of a step; both leave the step with health [1 - 4.794 <= 0] and
    still alive, since the elimination test ran before the pairwise loop. *)
Lemma pair_damage_not_eliminated :
  exists t',
    tops (physicsStep demo_settings FIXED_DT (mkSim true [clash_a; clash_b] None)) !! 0%nat
    = Some t'
    /\ hp t' <= 0
    /\ alive t' = true.
Proof.
  set (ia := mkTop "k3v9q1a" "Inception" "#22c55e" (-9.5) 0 59.925 0 0.025 2.995 26 1 true).
  set (ib := mkTop "p0x7m2c" "The Matrix" "#3b82f6" 9.5 0 (-59.925) 0 0.025 2.995 26 1 true).
  assert (Hwa : wall_one demo_settings ia = ia).
  { apply wall_one_inside; [reflexivity | |];
      unfold ia, demo_settings; fields; rewrite hypot_axis_abs, Rabs_left by lra.
    - lra.
    - unfold ring_out. fields.
      rewrite Rltb_false, Rleb_false by lra.
      rewrite hypot_axis_abs, Rabs_pos_eq by lra.
      rewrite (Rltb_false 59.925) by lra. reflexivity. }
  assert (Hwb : wall_one demo_settings ib = ib).
  { apply wall_one_inside; [reflexivity | |];
      unfold ib, demo_settings; fields; rewrite hypot_axis_abs, Rabs_pos_eq by lra.
    - lra.
    - unfold ring_out. fields.
      rewrite Rltb_false, Rleb_false by lra.
      rewrite hypot_axis_abs, Rabs_left by lra.
      rewrite (Rltb_false (- -59.925)) by lra. reflexivity. }
  assert (Hd2 : dist2 ia ib = 19 * 19).
  { unfold dist2, ia, ib. fields. lra. }
  assert (Hov : overlapping ia ib = true).
  { unfold overlapping. rewrite Hd2. unfold ia, ib. fields. apply Rltb_true. lra. }
  assert (Hcd : center_dist ia ib = 19).
  { unfold center_dist. rewrite Hd2, Rmax_right by lra. apply sqrt_square. lra. }
  rewrite physicsStep_tops. cbn [tops map].
  rewrite clash_a_integrated, clash_b_integrated. fold ia ib.
  rewrite Hwa, Hwb, (pair_pass_two demo_settings ia ib eq_refl eq_refl Hov).
  exists (fst (collide demo_settings ia ib)). split; [reflexivity |].
  split; [| reflexivity].
  unfold collide, normal_x, normal_y. rewrite Hcd.
  unfold collide_along, ia, ib, demo_settings. fields.
  match goal with |- _ - Rabs ?v * _ * _ <= _ => replace v with (- 119.85) by lra end.
  rewrite Rabs_left by lra. lra.
Qed.

Lemma elimination_in_wall_loop_witness :
  [clash_a; clash_b] !! 1%nat = Some clash_b
  /\ exists t',
       tops (physicsStep demo_settings FIXED_DT (mkSim true [clash_a; clash_b] None)) !! 1%nat
       = Some t'
       /\ (alive clash_b = false -> alive t' = false).
Proof.
  split; [reflexivity |].
  destruct (elimination_in_wall_loop demo_settings FIXED_DT
              (mkSim true [clash_a; clash_b] None) 1 clash_b eq_refl)
    as (t' & Hi & _ & Hdead).
  exists t'. auto.
Defined.

Lemma check_winner_tops sim : tops (check_winner sim) = tops sim.
Proof. unfold check_winner. destruct (length _ <=? 1)%nat; reflexivity. Qed.

Lemma physicsStep_check_winner s dt sim :
  physicsStep s dt sim
  = check_winner (mkSim (running sim) (tops (physicsStep s dt sim)) (winner sim)).
Proof. rewrite physicsStep_tops. reflexivity. Qed.

(** The spinning body after one step: moved nowhere, slowed a little, alive. *)
Lemma spinner_step :
  tops (physicsStep demo_settings FIXED_DT (mkSim true [spinner] None))
  = [mkTop "k3v9q1a" "Inception" "#22c55e" 0 0 0 0 0.025 2.995 26 100 true].
Proof.
  set (u := mkTop "k3v9q1a" "Inception" "#22c55e" 0 0 0 0 0.025 2.995 26 100 true).
  assert (Hu : integrate_one demo_settings FIXED_DT spinner = u).
  { unfold integrate_one, spinner, demo_settings, FIXED_DT, u. fields.
    rewrite !Rmax_right by lra. f_equal; lra. }
  assert (Hw : wall_one demo_settings u = u).
  { apply wall_one_inside; [reflexivity | |];
      unfold u, demo_settings; fields; rewrite hypot_axis_abs, Rabs_R0.
    - lra.
    - unfold ring_out. fields.
      rewrite Rltb_false, Rleb_false by lra.
      rewrite hypot_axis_abs, Rabs_R0, (Rabs_pos_eq 2.995) by lra.
      rewrite (Rltb_false 2.995) by lra. apply andb_false_r. }
  rewrite physicsStep_tops. cbn [tops map].
  rewrite Hu, Hw. apply pair_pass_single.
Qed.

(** C3, as stated, fails: when one body remains alive the step records its
    label, not its id. *)
Lemma winner_is_label_not_id :
  let sim' := physicsStep demo_settings FIXED_DT (mkSim true [spinner] None) in
  exists t,
    List.filter alive (tops sim') = [t]
    /\ running sim' = false
    /\ winner sim' = Some "Inception"%string
    /\ id t = "k3v9q1a"%string
    /\ winner sim' <> Some (id t).
Proof.
  cbv zeta. rewrite physicsStep_check_winner, spinner_step.
  eexists. split; [reflexivity |].
  repeat split. cbn. discriminate.
Qed.

(** C3 (amended): when at most one body is alive after the step, the step
    sets [running] to false and sets the winner to the label of the first
    (the only) alive body of the array, [None] when that label is the empty
    string or when no body is alive. *)
Theorem termination_records_label s dt sim :
  let sim' := physicsStep s dt sim in
  (length (List.filter alive (tops sim')) <= 1)%nat ->
  running sim' = false
  /\ match List.filter alive (tops sim') with
     | [] => winner sim' = None
     | t :: _ =>
         winner sim' = if String.eqb (label t) "" then None else Some (label t)
     end.
Proof.
  cbv zeta. intros Hlen.
  set (ts := tops (physicsStep s dt sim)) in *.
  rewrite physicsStep_check_winner. fold ts. clearbody ts.
  unfold check_winner. cbn [tops].
  destruct (Nat.leb_spec (length (List.filter alive ts)) 1) as [_ | Hgt]; [| lia].
  cbn [running winner]. split; [reflexivity |].
  destruct (List.filter alive ts); reflexivity.
Qed.

Lemma termination_records_label_witness :
  let sim' := physicsStep demo_settings FIXED_DT (mkSim true [spinner] None) in
  (length (List.filter alive (tops sim')) <= 1)%nat
  /\ running sim' = false.
Proof.
  cbv zeta.
  assert (Hlen : (length (List.filter alive
                   (tops (physicsStep demo_settings FIXED_DT (mkSim true [spinner] None)))) <= 1)%nat).
  { rewrite spinner_step. cbn. lia. }
  split; [exact Hlen |].
  apply (termination_records_label demo_settings FIXED_DT (mkSim true [spinner] None) Hlen).
Defined.

End Elimination.

(** ** C7: the initializer *)

Section Spawn.
Import Rng.

Lemma next_state_after sd k :
  next (state_after sd k) = (state_after sd (N.succ k), draw sd k).
Proof. rewrite state_after_succ. unfold draw, next. cbn [snd]. reflexivity. Qed.

Lemma next_state_after_nat sd k :
  next (state_after sd (N.of_nat k))
  = (state_after sd (N.of_nat (S k)), draw sd (N.of_nat k)).
Proof. rewrite Nat2N.inj_succ. apply next_state_after. Qed.

(** From the state reached after [5 i] calls, the callback builds the
    body the specification describes and leaves the generator after
    [5 (i + 1)] calls. *)
Lemma spawn_one_spec s n i m :
  spawn_one s n i m (state_after (seed s) (N.of_nat (5 * i)))
  = (spec_body s n i m, state_after (seed s) (N.of_nat (5 * S i))).
Proof.
  unfold spawn_one. rewrite !next_state_after_nat.
  unfold spec_body, spec_heading, spec_angle, spec_radial, spec_speed,
    spec_spin, stream.
  replace (5 * i + 1)%nat with (S (5 * i)) by lia.
  replace (5 * i + 2)%nat with (S (S (5 * i))) by lia.
  replace (5 * i + 3)%nat with (S (S (S (5 * i)))) by lia.
  replace (5 * i + 4)%nat with (S (S (S (S (5 * i))))) by lia.
  replace (5 * S i)%nat with (S (S (S (S (S (5 * i)))))) by lia.
  reflexivity.
Qed.

Lemma spawn_from_spec s n ms : forall i,
  snd (spawn_from s n i ms (state_after (seed s) (N.of_nat (5 * i))))
  = state_after (seed s) (N.of_nat (5 * (i + length ms)))
  /\ forall j m, ms !! j = Some m ->
       fst (spawn_from s n i ms (state_after (seed s) (N.of_nat (5 * i)))) !! j
       = Some (spec_body s n (i + j) m).
Proof.
  induction ms as [| m0 ms IH]; intros i.
  - cbn [spawn_from snd fst length]. rewrite Nat.add_0_r.
    split; [reflexivity | intros j m Hj; discriminate].
  - cbn [spawn_from]. rewrite spawn_one_spec.
    destruct (IH (S i)) as [Hst Hlk].
    destruct (spawn_from s n (S i) ms _) as [rest t2]. cbn [fst snd] in *.
    split.
    + rewrite Hst. cbn [length]. f_equal. f_equal. lia.
    + intros [| j] m Hj.
      * cbn in Hj. injection Hj as <-. rewrite Nat.add_0_r. reflexivity.
      * cbn in Hj. change ((spec_body s n i m0 :: rest) !! S j) with (rest !! j).
        rewrite (Hlk j m Hj). f_equal. f_equal. lia.
Qed.

Lemma stream_unit_interval s k : 0 <= stream s k < 1.
Proof. unfold stream. apply draw_unit_interval. Qed.

(** C7: [spawnTops] goes through the roster in order and takes its
    numbers from one generator, seeded with the settings' seed, five per
    body in the order angle jitter, radius fraction, speed, heading jitter,
    angular velocity: the body at index [i] is the one the specification
    builds from numbers [5 i .. 5 i + 4] of the stream, and the generator is
    left after [5 n] calls.  The jitter of the angle lies in [0, 0.2), the
    radial distance is 85% of [arenaR - topR - 6] plus a fraction in [0, 1)
    of 15% of it, and the speed lies in [120, 200). *)
Theorem spawn_follows_draw_order c i m :
  movies c !! i = Some m ->
  let s := settings c in
  let n := length (movies c) in
  let span := arenaR s - topR s - 6 in
  exists body,
    tops (simRef (spawnTops c)) !! i = Some body
    /\ body = spec_body s n i m
    /\ rngRef (spawnTops c) = Seeded (state_after (seed s) (N.of_nat (5 * n)))
    /\ 0 <= ang body - INR i * (2 * PI / Rmax 1 (INR n)) < 0.2
    /\ x body = cos (ang body) * spec_radial s i
    /\ y body = sin (ang body) * spec_radial s i
    /\ hypot (x body) (y body) = Rabs (spec_radial s i)
    /\ (exists f, 0 <= f < 1
                  /\ spec_radial s i = span * 0.85 + span * 0.15 * f)
    /\ hypot (vx body) (vy body) = spec_speed s i
    /\ 120 <= spec_speed s i < 200.
Proof.
  intros Hi s n span.
  destruct (spawn_from_spec s n (movies c) 0) as [Hst Hlk].
  specialize (Hlk i m Hi). cbn [Nat.add] in Hlk, Hst.
  exists (spec_body s n i m).
  pose proof (stream_unit_interval s (5 * i)) as Hu0.
  pose proof (stream_unit_interval s (5 * i + 1)) as Hu1.
  pose proof (stream_unit_interval s (5 * i + 2)) as Hu2.
  assert (Hspeed : 120 <= spec_speed s i < 200) by (unfold spec_speed; lra).
  split.
  { unfold spawnTops. fold s n. change (Rng.mulberry32 (seed s))
      with (state_after (seed s) (N.of_nat (5 * 0))).
    destruct (spawn_from s n 0 (movies c) _) as [arr t]. exact Hlk. }
  split; [reflexivity |].
  split.
  { unfold spawnTops. fold s n. change (Rng.mulberry32 (seed s))
      with (state_after (seed s) (N.of_nat (5 * 0))).
    destruct (spawn_from s n 0 (movies c) _) as [arr t]. cbn [snd] in Hst.
    cbn [rngRef]. rewrite Hst. reflexivity. }
  unfold spec_body. fields.
  split; [unfold spec_angle; lra |].
  split; [reflexivity |].
  split; [reflexivity |].
  split; [apply hypot_polar |].
  split; [exists (stream s (5 * i + 1)); split; [assumption | reflexivity] |].
  split; [| assumption].
  rewrite hypot_polar. apply Rabs_pos_eq. lra.
Qed.

Lemma spawn_follows_draw_order_witness :
  movies fresh_component !! 1%nat = Some matrix
  /\ exists body,
       tops (simRef (spawnTops fresh_component)) !! 1%nat = Some body
       /\ body = spec_body demo_settings 2 1 matrix
       /\ 120 <= hypot (vx body) (vy body) < 200.
Proof.
  split; [reflexivity |].
  destruct (spawn_follows_draw_order fresh_component 1 matrix eq_refl)
    as (body & Hl & Hb & _ & _ & _ & _ & _ & _ & Hs & Hr).
  exists body. rewrite Hs. auto.
Defined.

End Spawn.

(** ** C10: no division by zero *)

Section Checked.

Lemma cdiv_nonzero a b : b <> 0 -> cdiv a b = Some (a / b).
Proof. intros Hb. unfold cdiv. destruct (Req_dec_T b 0); [contradiction | reflexivity]. Qed.

Lemma csqrt_nonneg a : 0 <= a -> csqrt a = Some (sqrt a).
Proof. intros Ha. unfold csqrt. destruct (Rlt_dec a 0); [lra | reflexivity]. Qed.

(** The clamp keeps the divisor of the pairwise loop at 0.001 or more. *)
Lemma center_dist_lower a b : 0.001 <= center_dist a b.
Proof.
  unfold center_dist.
  rewrite <- (sqrt_square 0.001) by lra.
  apply sqrt_le_1_alt. pose proof (Rmax_l 1e-6 (dist2 a b)). lra.
Qed.

Lemma collide_c_total s a b : collide_c s a b = Some (collide s a b).
Proof.
  pose proof (center_dist_lower a b) as Hd.
  unfold collide_c. rewrite csqrt_nonneg by (pose proof (Rmax_l 1e-6 (dist2 a b)); lra).
  cbn [mbind option_bind]. fold (center_dist a b).
  rewrite !cdiv_nonzero by lra. reflexivity.
Qed.

Lemma pair_at_c_total s i j ts : pair_at_c s i j ts = Some (pair_at s i j ts).
Proof.
  unfold pair_at_c, pair_at.
  destruct (ts !! i) as [a |]; [| reflexivity].
  destruct (ts !! j) as [b |]; [| reflexivity].
  destruct (alive b); [| reflexivity].
  destruct (overlapping a b); [| reflexivity].
  rewrite collide_c_total. destruct (collide s a b) as [a' b']. reflexivity.
Qed.

Lemma fold_option_total {A} (fc : A -> nat -> option A) (f : A -> nat -> A) js :
  (forall acc j, fc acc j = Some (f acc j)) ->
  forall acc,
    fold_left (fun o j => o ≫= fun v => fc v j) js (Some acc)
    = Some (fold_left f js acc).
Proof.
  intros Hf. induction js as [| j js IH]; intros acc; cbn [fold_left].
  - reflexivity.
  - cbn [mbind option_bind]. rewrite Hf. apply IH.
Qed.

Lemma pair_inner_c_total s i ts : pair_inner_c s i ts = Some (pair_inner s i ts).
Proof.
  unfold pair_inner_c, pair_inner.
  apply (fold_option_total (fun acc j => pair_at_c s i j acc)
                           (fun acc j => pair_at s i j acc)).
  intros acc j. apply pair_at_c_total.
Qed.

Lemma pair_pass_c_total s ts : pair_pass_c s ts = Some (pair_pass s ts).
Proof.
  unfold pair_pass_c, pair_pass.
  apply (fold_option_total
           (fun acc i => match acc !! i with
                         | Some a => if alive a then pair_inner_c s i acc else Some acc
                         | None => Some acc
                         end)
           (pair_outer s)).
  intros acc i. unfold pair_outer.
  destruct (acc !! i) as [a |]; [| reflexivity].
  destruct (alive a); [apply pair_inner_c_total | reflexivity].
Qed.

(** The wall loop divides by the distance only when it exceeds the limit,
    which is positive when the arena exceeds the body by more than 4. *)
Lemma wall_one_c_safe s t :
  r t + 4 < arenaR s -> wall_one_c s t = Some (wall_one s t).
Proof.
  intros Hr. unfold wall_one_c, wall_one.
  destruct (alive t); [| reflexivity].
  destruct (Rltb_spec (arenaR s - r t - 4) (hypot (x t) (y t))) as [Hd | _].
  - unfold wall_bounce_c. rewrite !cdiv_nonzero by lra. reflexivity.
  - reflexivity.
Qed.

Lemma wall_pass_c_safe s ts :
  Forall (fun t => r t + 4 < arenaR s) ts ->
  mapM (wall_one_c s) ts = Some (map (wall_one s) ts).
Proof.
  intros H. apply mapM_Some_2.
  induction H as [| t ts Ht _ IH]; cbn [map]; constructor.
  - apply wall_one_c_safe, Ht.
  - exact IH.
Qed.

Lemma integrate_one_radius s dt t : r (integrate_one s dt t) = r t.
Proof. unfold integrate_one. destruct (alive t); reflexivity. Qed.

Lemma checked_step_agrees s dt sim :
  Forall (fun t => r t + 4 < arenaR s) (tops sim) ->
  physicsStep_c s dt sim = Some (physicsStep s dt sim).
Proof.
  intros Hr. unfold physicsStep_c, physicsStep.
  rewrite wall_pass_c_safe.
  - cbn [mbind option_bind]. rewrite pair_pass_c_total. reflexivity.
  - induction Hr as [| t ts Ht _ IH]; cbn [map]; constructor.
    + rewrite integrate_one_radius. exact Ht.
    + exact IH.
Qed.



(** In a match built by [spawnTops] every body has the radius of the
    settings, at every step, so the condition is one on the settings. *)
Lemma spawn_from_radius s n ms : forall i t,
  Forall (fun b => r b = topR s) (fst (spawn_from s n i ms t)).
Proof.
  induction ms as [| m ms IH]; intros i t; cbn [spawn_from].
  - constructor.
  - destruct (spawn_one s n i m t) as [top t1] eqn:Hone.
    specialize (IH (S i) t1).
    destruct (spawn_from s n (S i) ms t1) as [rest t2]. cbn [fst] in *.
    constructor; [| exact IH].
    unfold spawn_one in Hone.
    repeat match type of Hone with
           | context [Rng.next ?v] => destruct (Rng.next v)
           end.
    injection Hone as <- _. reflexivity.
Qed.

Lemma steps_radius n s dt : forall sim,
  Forall (fun b => r b = topR s) (tops sim) ->
  Forall (fun b => r b = topR s) (tops (steps n s dt sim)).
Proof.
  induction n as [| n IH]; intros sim H; cbn [steps]; [exact H |].
  apply IH. rewrite Forall_forall in *. intros b Hb.
  apply list_elem_of_lookup in Hb as [i Hi].
  pose proof (physicsStep_same_body s dt sim) as Hsame.
  destruct (Forall2_lookup_r _ _ _ _ _ Hsame Hi) as (a & Ha & _ & _ & _ & Hr).
  rewrite Hr. apply H. apply list_elem_of_lookup. eauto.
Qed.

Lemma match_never_divides_by_zero c dt n :
  topR (settings c) + 4 < arenaR (settings c) ->
  let sim := steps n (settings c) dt (simRef (spawnTops c)) in
  physicsStep_c (settings c) dt sim = Some (physicsStep (settings c) dt sim).
Proof.
  intros Hs sim.
  assert (Hr : Forall (fun b => r b = topR (settings c)) (tops sim)).
  { apply steps_radius. unfold spawnTops.
    pose proof (spawn_from_radius (settings c) (length (movies c)) (movies c) 0
                  (Rng.mulberry32 (seed (settings c)))) as H.
    destruct (spawn_from _ _ _ _ _) as [arr t]. exact H. }
  assert (Hb : Forall (fun t => r t + 4 < arenaR (settings c)) (tops sim)).
  { rewrite Forall_forall in *. intros b Hb. rewrite (Hr b Hb). exact Hs. }
  apply checked_step_agrees, Hb.
Qed.

(** Without the hypothesis the check does fire: in an arena smaller than
    the body, a body resting at the center is "past the wall" at distance
    0, and the wall loop divides 0 by 0. *)
Example centered_body_divides_by_zero :
  physicsStep_c cramped_settings FIXED_DT (mkSim true [spinner] None) = None.
Proof.
  unfold physicsStep_c. cbn [tops map].
  assert (Hu : integrate_one cramped_settings FIXED_DT spinner
               = mkTop "k3v9q1a" "Inception" "#22c55e" 0 0 0 0 0.025 2.995 26 100 true).
  { unfold integrate_one, spinner, cramped_settings, FIXED_DT. fields.
    rewrite !Rmax_right by lra. f_equal; lra. }
  rewrite Hu. cbn [mapM]. unfold wall_one_c, cramped_settings. fields.
  rewrite hypot_axis_abs, Rabs_R0, Rltb_true by lra.
  unfold wall_bounce_c. fields. rewrite hypot_axis_abs, Rabs_R0.
  unfold cdiv. destruct (Req_dec_T 0 0); [reflexivity | contradiction].
Qed.

End Checked.

(** ** C9: health, in an arena larger than the bodies *)

Section HealthGuarded.

(** C9: with a positive damage multiplier, in an arena whose radius
    exceeds every body's radius by more than 4 (so that the wall loop never
    divides 0 by 0: the checked step computes the step's result), the body
    at each index of the array is still there after a physics step, is the
    same body, and its health is at most what it was. *)
Theorem health_never_increases s dt sim i t :
  0 < damage s ->
  Forall (fun b => r b + 4 < arenaR s) (tops sim) ->
  tops sim !! i = Some t ->
  physicsStep_c s dt sim = Some (physicsStep s dt sim)
  /\ exists t',
       tops (physicsStep s dt sim) !! i = Some t'
       /\ id t' = id t
       /\ hp t' <= hp t.
Proof.
  intros Hdmg Harena Hi.
  split; [apply checked_step_agrees, Harena |].
  assert (Hrel : Forall2 hp_le (tops sim) (tops (physicsStep s dt sim))).
  { apply physicsStep_rel; unfold hp_le.
    - intros a. lra.
    - intros a b c. lra.
    - intros a b. apply collide_hp. lra.
    - intros a. unfold integrate_one. destruct (alive a); cbn; lra.
    - intros a. apply wall_one_hp. lra. }
  destruct (Forall2_lookup_l _ _ _ _ _ Hrel Hi) as (t' & Hi' & Hhp).
  destruct (Forall2_lookup_l _ _ _ _ _ (physicsStep_same_body s dt sim) Hi)
    as (t'' & Hi'' & Hid & _).
  assert (t'' = t') by congruence. subst t''.
  exists t'. auto.
Qed.

Lemma health_never_increases_witness :
  0 < damage demo_settings
  /\ Forall (fun b => r b + 4 < arenaR demo_settings) [far_a; far_b]
  /\ exists t',
       tops (physicsStep demo_settings FIXED_DT (mkSim true [far_a; far_b] None)) !! 1%nat
       = Some t'
       /\ id t' = id far_b
       /\ hp t' <= hp far_b.
Proof.
  assert (Hd : 0 < damage demo_settings) by (unfold demo_settings; fields; lra).
  assert (Ha : Forall (fun b => r b + 4 < arenaR demo_settings) [far_a; far_b]).
  { repeat constructor; unfold far_a, far_b, demo_settings; fields; lra. }
  split; [exact Hd |]. split; [exact Ha |].
  destruct (health_never_increases demo_settings FIXED_DT
              (mkSim true [far_a; far_b] None) 1 far_b Hd Ha eq_refl)
    as [_ H].
  exact H.
Defined.

End HealthGuarded.

(** ** C10 over doubles: overflow *)

Section Overflow.
Import PrimFloat.

(** The wall loop never writes the angle, whatever [Math.hypot] returns. *)
Lemma wall_one_d_keeps_angle hyp s t :
  Doubles.ang (Doubles.wall_one hyp s t) = Doubles.ang t.
Proof.
  unfold Doubles.wall_one. destruct (Doubles.alive t); [| reflexivity].
  cbv zeta.
  destruct (ltb (Doubles.arenaR s - Doubles.r t - 4) (hyp (Doubles.x t) (Doubles.y t)));
    match goal with |- context [if ?c then _ else _] => destruct c end;
    reflexivity.
Qed.

(** Whatever [Math.hypot] returns, the body [spun_up] leaves the step with
    an infinite angle. *)
Lemma spun_up_angle_any_hypot hyp :
  Doubles.ang (Doubles.step_one hyp Doubles.default_settings Doubles.FIXED_DT
                 Doubles.spun_up)
  = infinity.
Proof.
  unfold Doubles.step_one. rewrite wall_one_d_keeps_angle.
  vm_compute. reflexivity.
Qed.


End Overflow.

(** * Further properties of the code *)

(** ** The generator *)

Section GeneratorMore.
Import Js Rng.

(** X1: whatever the seed and however many calls were made before (also
    beyond the point where the state is rounded), the number a call returns
    is at least 0 and below 1. *)
Theorem generator_unit_interval sd k :
  0 <= uniform (draw sd k) < 1
  /\ (0 <= draw sd k < two32)%Z.
Proof.
  split; [apply draw_unit_interval |].
  unfold draw, next. cbn [snd]. apply mix_range.
Qed.

(** X2: as long as the seed (taken modulo 2^32) plus the increments of all
    calls made so far stays at or below 2^53, the closure returns exactly
    what a generator with a wrapping 32-bit state returns. *)
Theorem generator_is_32bit_while_exact sd k :
  (ToUint32 sd + (Z.of_N k + 1) * increment <= two53)%Z ->
  draw sd k = spec_draw sd k
  /\ state_after sd (N.succ k) mod two32 = spec_state_after sd (N.succ k).
Proof.
  intros Hk. split; [apply draw_spec_draw, Hk |].
  rewrite state_after_exact by (rewrite N2Z.inj_succ; unfold increment in *; lia).
  rewrite spec_state_after_closed. unfold ToUint32.
  rewrite Z.add_mod_idemp_l by (unfold two32; lia). reflexivity.
Qed.

Lemma generator_is_32bit_while_exact_witness :
  (ToUint32 1337 + (Z.of_N 4000000 + 1) * increment <= two53)%Z
  /\ draw 1337 4000000 = spec_draw 1337 4000000.
Proof.
  assert (H : (ToUint32 1337 + (Z.of_N 4000000 + 1) * increment <= two53)%Z)
    by (vm_compute; discriminate).
  split; [exact H |].
  destruct (generator_is_32bit_while_exact 1337 4000000 H) as [Hd _]. exact Hd.
Defined.

End GeneratorMore.

(** ** Spawning, starting and resetting *)

Section SpawnMore.
Import Rng.

Lemma spawn_from_imap s n ms : forall i,
  fst (spawn_from s n i ms (state_after (seed s) (N.of_nat (5 * i))))
  = imap (fun j m => spec_body s n (i + j) m) ms.
Proof.
  induction ms as [| m0 ms IH]; intros i; [reflexivity |].
  cbn [spawn_from]. rewrite spawn_one_spec.
  specialize (IH (S i)).
  destruct (spawn_from s n (S i) ms _) as [rest t2]. cbn [fst] in *.
  rewrite imap_cons, Nat.add_0_r. f_equal. rewrite IH.
  apply imap_ext. intros j m _. cbn. f_equal. lia.
Qed.

Lemma spawnTops_tops c :
  tops (simRef (spawnTops c))
  = imap (spec_body (settings c) (length (movies c))) (movies c).
Proof.
  unfold spawnTops.
  pose proof (spawn_from_imap (settings c) (length (movies c)) (movies c) 0) as H.
  change (state_after (seed (settings c)) (N.of_nat (5 * 0)))
    with (mulberry32 (seed (settings c))) in H.
  destruct (spawn_from _ _ _ _ _) as [arr t]. cbn [fst simRef tops] in *.
  rewrite H. apply imap_ext. intros j m _. reflexivity.
Qed.

Lemma spawnTops_frame c :
  movies (spawnTops c) = movies c
  /\ settings (spawnTops c) = settings c
  /\ running (simRef (spawnTops c)) = running (simRef c)
  /\ winner (simRef (spawnTops c)) = None.
Proof.
  unfold spawnTops. destruct (spawn_from _ _ _ _ _) as [arr t]. cbn. auto.
Qed.

(** X3: [spawnTops] makes one body per roster entry, in roster order, each
    with the id, label and color of its entry, alive, with health 100 and
    the radius of the settings; it clears the winner and leaves the roster,
    the settings and the running flag as they were. *)
Theorem spawn_one_body_per_movie c :
  map id (tops (simRef (spawnTops c))) = map m_id (movies c)
  /\ map label (tops (simRef (spawnTops c))) = map m_label (movies c)
  /\ map color (tops (simRef (spawnTops c))) = map m_color (movies c)
  /\ Forall (fun b => alive b = true /\ hp b = 100 /\ r b = topR (settings c))
            (tops (simRef (spawnTops c)))
  /\ winner (simRef (spawnTops c)) = None
  /\ running (simRef (spawnTops c)) = running (simRef c)
  /\ movies (spawnTops c) = movies c
  /\ settings (spawnTops c) = settings c.
Proof.
  destruct (spawnTops_frame c) as (Hm & Hs & Hr & Hw).
  rewrite spawnTops_tops.
  generalize (length (movies c)). intros n.
  assert (Hgen : forall ms (f : nat -> nat),
    map id (imap (fun j => spec_body (settings c) n (f j)) ms) = map m_id ms
    /\ map label (imap (fun j => spec_body (settings c) n (f j)) ms) = map m_label ms
    /\ map color (imap (fun j => spec_body (settings c) n (f j)) ms) = map m_color ms
    /\ Forall (fun b => alive b = true /\ hp b = 100 /\ r b = topR (settings c))
              (imap (fun j => spec_body (settings c) n (f j)) ms)).
  { induction ms as [| m ms IH]; intros f.
    - cbn. repeat split; constructor.
    - rewrite imap_cons. destruct (IH (f ∘ S)) as (H1 & H2 & H3 & H4).
      cbn [map]. repeat split.
      + f_equal. exact H1.
      + f_equal. exact H2.
      + f_equal. exact H3.
      + constructor; [repeat split | exact H4]. }
  destruct (Hgen (movies c) (fun j => j)) as (H1 & H2 & H3 & H4).
  repeat split; assumption.
Qed.

(** X4: when the arena radius is at least the body radius plus 6, every
    spawned body lies between 85% and 100% of [arenaR - topR - 6] from the
    center, hence strictly inside the limit [arenaR - r - 4] of the wall
    loop: no body starts in contact with the wall. *)
Theorem spawned_inside_wall c i b :
  topR (settings c) + 6 <= arenaR (settings c) ->
  tops (simRef (spawnTops c)) !! i = Some b ->
  let span := arenaR (settings c) - topR (settings c) - 6 in
  span * 0.85 <= hypot (x b) (y b) <= span
  /\ hypot (x b) (y b) < arenaR (settings c) - r b - 4.
Proof.
  intros Hs Hi span.
  rewrite spawnTops_tops, list_lookup_imap in Hi.
  destruct (movies c !! i) as [m |]; [| discriminate].
  cbn in Hi. injection Hi as <-.
  pose proof (stream_unit_interval (settings c) (5 * i + 1)) as Hu.
  unfold spec_body. fields. rewrite hypot_polar.
  assert (Hrad : span * 0.85 <= spec_radial (settings c) i <= span).
  { unfold spec_radial. fold span. assert (0 <= span) by (unfold span; lra). nra. }
  rewrite Rabs_pos_eq by (unfold span in *; nra).
  unfold span in *. lra.
Qed.

Lemma spawned_inside_wall_witness :
  topR (settings fresh_component) + 6 <= arenaR (settings fresh_component)
  /\ forall b, tops (simRef (spawnTops fresh_component)) !! 1%nat = Some b ->
               hypot (x b) (y b) < 250 - r b - 4.
Proof.
  assert (H : topR (settings fresh_component) + 6 <= arenaR (settings fresh_component)).
  { unfold fresh_component, demo_settings. cbn [settings topR arenaR]. lra. }
  split; [exact H |].
  intros b Hb.
  destruct (spawned_inside_wall fresh_component 1 b H Hb) as [_ Hlt].
  exact Hlt.
Defined.

Lemma spawnTops_ignores_sim c1 c2 :
  movies c1 = movies c2 -> settings c1 = settings c2 ->
  running (simRef c1) = running (simRef c2) ->
  spawnTops c1 = spawnTops c2.
Proof.
  intros Hm Hs Hr. unfold spawnTops. rewrite Hm, Hs, Hr. reflexivity.
Qed.

End SpawnMore.

(** ** What a step keeps *)

Section StepKeeps.

Lemma ghost_refl t : ghost t t.
Proof. split; auto. Qed.

Lemma ghost_trans a b c : ghost a b -> ghost b c -> ghost a c.
Proof.
  intros [Hab1 Hab2] [Hbc1 Hbc2]. split; [congruence |].
  intros Ha. rewrite Hbc2, Hab2; auto. congruence.
Qed.

Lemma still_trans a b c : still a b -> still b c -> still a c.
Proof.
  unfold still. intros Hab Hbc Ha.
  specialize (Hab Ha). subst b. auto.
Qed.

Lemma pair_at_ghost s i j (ts : list Top) :
  (forall a, ts !! i = Some a -> alive a = true) -> i <> j ->
  Forall2 ghost ts (pair_at s i j ts).
Proof.
  intros Hai Hne. unfold pair_at.
  destruct (ts !! i) as [a |] eqn:Hi; [| apply rel_refl, ghost_refl].
  destruct (ts !! j) as [b |] eqn:Hj; [| apply rel_refl, ghost_refl].
  destruct (alive b) eqn:Hb; [| apply rel_refl, ghost_refl].
  destruct (overlapping a b); [| apply rel_refl, ghost_refl].
  specialize (Hai a eq_refl).
  assert (Ha' : ghost a (fst (collide s a b))).
  { split; [reflexivity | congruence]. }
  assert (Hb' : ghost b (snd (collide s a b))).
  { split; [reflexivity | congruence]. }
  destruct (collide s a b) as [a' b']. cbn [fst snd] in *.
  eapply (rel_trans ghost ghost_trans);
    [apply (rel_insert ghost ghost_refl ts i a a' Hi Ha') |].
  apply (rel_insert ghost ghost_refl _ j b b'); [| exact Hb'].
  rewrite list_lookup_insert_ne by assumption. exact Hj.
Qed.

Lemma pair_inner_ghost s i : forall (js : list nat) (ts : list Top),
  (forall j, In j js -> i <> j) ->
  (forall a, ts !! i = Some a -> alive a = true) ->
  Forall2 ghost ts (fold_left (fun acc j => pair_at s i j acc) js ts).
Proof.
  induction js as [| j js IH]; intros ts Hjs Hai; cbn [fold_left].
  - apply rel_refl, ghost_refl.
  - assert (Hstep : Forall2 ghost ts (pair_at s i j ts)).
    { apply pair_at_ghost; [exact Hai | apply Hjs; left; reflexivity]. }
    eapply (rel_trans ghost ghost_trans); [exact Hstep |].
    apply IH.
    + intros j' Hj'. apply Hjs. right. exact Hj'.
    + intros a' Ha'.
      destruct (Forall2_lookup_r _ _ _ _ _ Hstep Ha') as (a & Ha & Hal & _).
      rewrite Hal. apply Hai, Ha.
Qed.

Lemma pair_pass_ghost s (ts : list Top) : Forall2 ghost ts (pair_pass s ts).
Proof.
  unfold pair_pass. apply (fold_rel ghost ghost_refl ghost_trans).
  intros ts' i _. unfold pair_outer.
  destruct (ts' !! i) as [a |] eqn:Hi; [| apply rel_refl, ghost_refl].
  destruct (alive a) eqn:Ha; [| apply rel_refl, ghost_refl].
  unfold pair_inner. apply pair_inner_ghost.
  - intros j Hj. apply in_seq in Hj. lia.
  - intros a' Ha'. congruence.
Qed.

Lemma physicsStep_still s dt sim :
  Forall2 still (tops sim) (tops (physicsStep s dt sim)).
Proof.
  rewrite physicsStep_tops.
  apply (rel_trans still still_trans _ (map (integrate_one s dt) (tops sim))).
  { apply rel_map. intros t Ht. unfold integrate_one. rewrite Ht. reflexivity. }
  apply (rel_trans still still_trans _
           (map (wall_one s) (map (integrate_one s dt) (tops sim)))).
  { apply rel_map. intros t Ht. unfold wall_one. rewrite Ht. reflexivity. }
  eapply Forall2_impl; [apply pair_pass_ghost |].
  intros a b [_ H]. exact H.
Qed.

Lemma alive_count_mono (l k : list Top) :
  Forall2 (fun a b => alive b = true -> alive a = true) l k ->
  (alive_count k <= alive_count l)%nat.
Proof.
  unfold alive_count. induction 1 as [| a b l k Hab _ IH]; cbn [List.filter].
  - lia.
  - destruct (alive b) eqn:Hb.
    + rewrite (Hab eq_refl). cbn [length]. lia.
    + destruct (alive a); cbn [length]; lia.
Qed.

Lemma physicsStep_alive_count s dt sim :
  (alive_count (tops (physicsStep s dt sim)) <= alive_count (tops sim))%nat.
Proof.
  apply alive_count_mono.
  eapply Forall2_impl; [apply physicsStep_still |].
  intros a b Hstill Hb. destruct (alive a) eqn:Ha; [reflexivity |].
  rewrite (Hstill Ha) in Hb. congruence.
Qed.

Lemma physicsStep_running s dt sim :
  running sim = false \/ (alive_count (tops sim) <= 1)%nat ->
  running (physicsStep s dt sim) = false.
Proof.
  intros H. pose proof (physicsStep_alive_count s dt sim) as Hc.
  rewrite physicsStep_check_winner. unfold check_winner. cbn [tops running].
  fold (alive_count (tops (physicsStep s dt sim))).
  destruct (Nat.leb_spec (alive_count (tops (physicsStep s dt sim))) 1) as [_ | Hgt].
  - reflexivity.
  - cbn [running]. destruct H as [H | H]; [exact H | lia].
Qed.

(** X6: a body that is not alive is left exactly as it is by a physics
    step: position, velocity, angle, spin and health are frozen, and it
    stays not alive. *)
Theorem dead_body_is_frozen s dt sim i t :
  tops sim !! i = Some t ->
  alive t = false ->
  tops (physicsStep s dt sim) !! i = Some t.
Proof.
  intros Hi Ha.
  destruct (Forall2_lookup_l _ _ _ _ _ (physicsStep_still s dt sim) Hi)
    as (t' & Hi' & Hstill).
  rewrite Hi', (Hstill Ha). reflexivity.
Qed.

Lemma dead_body_is_frozen_witness :
  tops (simRef used_component) !! 0%nat
  = Some (mkTop "k3v9q1a" "Inception" "#22c55e" 10 20 0 0 1 0 26 0 false)
  /\ tops (physicsStep demo_settings FIXED_DT (simRef used_component)) !! 0%nat
     = Some (mkTop "k3v9q1a" "Inception" "#22c55e" 10 20 0 0 1 0 26 0 false).
Proof.
  split; [reflexivity |].
  apply (dead_body_is_frozen demo_settings FIXED_DT (simRef used_component) 0);
    reflexivity.
Defined.

(** X7: over any number of physics steps the number of alive bodies never
    grows, and the array keeps its length. *)
Theorem population_never_grows n s dt sim :
  (alive_count (tops (steps n s dt sim)) <= alive_count (tops sim))%nat
  /\ length (tops (steps n s dt sim)) = length (tops sim).
Proof.
  revert sim. induction n as [| n IH]; intros sim; cbn [steps]; [split; lia |].
  destruct (IH (physicsStep s dt sim)) as [Hc Hl].
  pose proof (physicsStep_alive_count s dt sim) as Hc1.
  pose proof (Forall2_length _ _ _ (physicsStep_same_body s dt sim)) as Hl1.
  split; [lia | congruence].
Qed.

(** X8: a physics step never sets [running] back to true, and once at most
    one body is alive every further step ends with [running] false: a match
    that has stopped, or has one body left, is stopped after every further
    step the frame still runs. *)
Theorem stopped_stays_stopped n s dt sim :
  running sim = false \/ (alive_count (tops sim) <= 1)%nat ->
  running (steps (S n) s dt sim) = false.
Proof.
  assert (Hgen : forall m sim0,
            running sim0 = false -> running (steps m s dt sim0) = false).
  { induction m as [| m IH]; intros sim0 H0; cbn [steps]; [exact H0 |].
    apply IH, physicsStep_running. left. exact H0. }
  intros H. cbn [steps]. apply Hgen, physicsStep_running. exact H.
Qed.

Lemma stopped_stays_stopped_witness :
  (alive_count [spinner] <= 1)%nat
  /\ running (steps 240 demo_settings FIXED_DT (mkSim true [spinner] None)) = false.
Proof.
  assert (H : (alive_count [spinner] <= 1)%nat) by (cbn; lia).
  split; [exact H |].
  apply (stopped_stays_stopped 239 demo_settings FIXED_DT (mkSim true [spinner] None)).
  right. exact H.
Defined.

(** X9: after any number of physics steps the body at each index is the
    body that was there: same id, label, color and radius. *)
Theorem bodies_keep_identity n s dt sim :
  Forall2 same_body (tops sim) (tops (steps n s dt sim)).
Proof.
  revert sim. induction n as [| n IH]; intros sim; cbn [steps].
  - apply rel_refl. intros t. repeat split.
  - eapply rel_trans; [| apply physicsStep_same_body | apply IH].
    intros a b c (? & ? & ? & ?) (? & ? & ? & ?). repeat split; congruence.
Qed.

End StepKeeps.

(** ** The wall loop, more *)

Section WallMore.

Lemma wall_bounce_lands s t :
  0 <= arenaR s - r t - 4 < hypot (x t) (y t) ->
  hypot (x (wall_bounce s t)) (y (wall_bounce s t)) = arenaR s - r t - 4.
Proof.
  intros [Hl Hd].
  set (dist := hypot (x t) (y t)) in *.
  set (limit := arenaR s - r t - 4) in *.
  assert (Hpos : 0 < dist) by lra.
  unfold wall_bounce, wall_reflect. fields. fold dist limit.
  replace (x t - x t / dist * (dist - limit)) with (limit * (x t / dist))
    by (field; lra).
  replace (y t - y t / dist * (dist - limit)) with (limit * (y t / dist))
    by (field; lra).
  rewrite hypot_scale by assumption.
  rewrite (hypot_of_unit (x t / dist) (y t / dist) (hypot_unit (x t) (y t) Hpos)).
  ring.
Qed.

Lemma wall_one_within s t :
  r t + 4 <= arenaR s ->
  alive t = true ->
  hypot (x (wall_one s t)) (y (wall_one s t)) <= arenaR s - r t - 4
  /\ r (wall_one s t) = r t.
Proof.
  intros Hr Ha. unfold wall_one. rewrite Ha.
  destruct (Rltb_spec (arenaR s - r t - 4) (hypot (x t) (y t))) as [Hd | Hd].
  - assert (Hl : 0 <= arenaR s - r t - 4) by lra.
    assert (Hland := wall_bounce_lands s t (conj Hl Hd)).
    destruct (ring_out _ _ _); unfold set_alive; fields; split;
      try lra; reflexivity.
  - destruct (ring_out _ _ _); unfold set_alive; fields; split;
      try lra; reflexivity.
Qed.

(** X10: in an arena at least 4 larger than the body, the wall loop puts a
    body that is alive and beyond the wall limit back at a distance from
    the center equal to the limit [arenaR - r - 4] (in exact arithmetic; the
    doubles of the code land within a rounding error of it, on either
    side). *)
Theorem wall_bounce_lands_on_limit s ts i t :
  ts !! i = Some t ->
  alive t = true ->
  r t + 4 <= arenaR s ->
  arenaR s - r t - 4 < hypot (x t) (y t) ->
  exists t',
    map (wall_one s) ts !! i = Some t'
    /\ r t' = r t
    /\ hypot (x t') (y t') = arenaR s - r t - 4.
Proof.
  intros Hi Ha Hr Hd. exists (wall_one s t).
  split; [rewrite list_lookup_fmap, Hi; reflexivity |].
  destruct (wall_one_within s t Hr Ha) as [_ Hrr].
  split; [exact Hrr |].
  destruct (wall_one_position_velocity s t Ha Hd) as (Hx & Hy & _ & _).
  rewrite Hx, Hy. apply wall_bounce_lands. lra.
Qed.

Lemma wall_bounce_lands_on_limit_witness :
  r wall_top + 4 <= arenaR demo_settings
  /\ arenaR demo_settings - r wall_top - 4 < hypot (x wall_top) (y wall_top)
  /\ exists t',
       map (wall_one demo_settings) [wall_top] !! 0%nat = Some t'
       /\ hypot (x t') (y t') = arenaR demo_settings - r wall_top - 4.
Proof.
  assert (H : r wall_top + 4 <= arenaR demo_settings).
  { unfold wall_top, demo_settings. fields. lra. }
  assert (Hd : arenaR demo_settings - r wall_top - 4 < hypot (x wall_top) (y wall_top)).
  { rewrite wall_top_dist. unfold wall_top, demo_settings. fields. lra. }
  split; [exact H |]. split; [exact Hd |].
  destruct (wall_bounce_lands_on_limit demo_settings [wall_top] 0 wall_top
              eq_refl eq_refl H Hd)
    as (t' & Hl & _ & Hw).
  exists t'. auto.
Defined.

End WallMore.

(** ** Sums over the bodies *)

Section Totals.

Variable mu : Top -> R.

Lemma total_insert (ts : list Top) i a a' :
  ts !! i = Some a ->
  total mu (<[i := a']> ts) = total mu ts - mu a + mu a'.
Proof.
  revert i. induction ts as [| t ts IH]; intros [| i] Hi; try discriminate.
  - cbn in Hi. injection Hi as ->. cbn. lra.
  - cbn in Hi. cbn [total fold_right]. change (<[S i := a']> (t :: ts))
      with (t :: <[i := a']> ts). cbn [total fold_right].
    fold (total mu ts). fold (total mu (<[i := a']> ts)).
    rewrite (IH i Hi). lra.
Qed.

Lemma total_map_le (f : Top -> Top) (P : Top -> Prop) (ts : list Top) :
  (forall t, P t -> mu (f t) <= mu t) ->
  Forall P ts ->
  total mu (map f ts) <= total mu ts.
Proof.
  intros Hf H. induction H as [| t ts Ht _ IH]; cbn; [lra |].
  specialize (Hf t Ht). fold (total mu ts). fold (total mu (map f ts)). lra.
Qed.

Variable s : Settings.
Hypothesis collide_le :
  forall a b,
    mu (fst (collide s a b)) + mu (snd (collide s a b)) <= mu a + mu b.

Lemma pair_at_total i j (ts : list Top) :
  i <> j -> total mu (pair_at s i j ts) <= total mu ts.
Proof.
  intros Hne. unfold pair_at.
  destruct (ts !! i) as [a |] eqn:Hi; [| lra].
  destruct (ts !! j) as [b |] eqn:Hj; [| lra].
  destruct (alive b); [| lra].
  destruct (overlapping a b); [| lra].
  specialize (collide_le a b).
  destruct (collide s a b) as [a' b']. cbn [fst snd] in *.
  rewrite (total_insert _ j b b')
    by (rewrite list_lookup_insert_ne by assumption; exact Hj).
  rewrite (total_insert ts i a a' Hi). lra.
Qed.

Lemma fold_total (f : list Top -> nat -> list Top) (js : list nat) :
  (forall ts j, In j js -> total mu (f ts j) <= total mu ts) ->
  forall ts, total mu (fold_left f js ts) <= total mu ts.
Proof.
  induction js as [| j js IH]; intros Hf ts; cbn [fold_left]; [lra |].
  apply Rle_trans with (total mu (f ts j)).
  - apply IH. intros ts' j' Hj'. apply Hf. right. exact Hj'.
  - apply Hf. left. reflexivity.
Qed.

Lemma pair_pass_total (ts : list Top) :
  total mu (pair_pass s ts) <= total mu ts.
Proof.
  unfold pair_pass. apply fold_total. intros ts' i _.
  unfold pair_outer. destruct (ts' !! i) as [a |]; [| lra].
  destruct (alive a); [| lra].
  unfold pair_inner. apply fold_total. intros ts'' j Hj.
  apply pair_at_total. apply in_seq in Hj. lia.
Qed.

End Totals.

Lemma total_opp mu (ts : list Top) :
  total (fun t => - mu t) ts = - total mu ts.
Proof.
  induction ts as [| t ts IH]; cbn; [lra |].
  fold (total mu ts). fold (total (fun t => - mu t) ts). rewrite IH. lra.
Qed.

(** A quantity whose sum over a colliding pair is kept by the collision is
    kept, summed over all bodies, by the whole pairwise loop. *)
Lemma pair_pass_conserves mu s (ts : list Top) :
  (forall a b,
     mu (fst (collide s a b)) + mu (snd (collide s a b)) = mu a + mu b) ->
  total mu (pair_pass s ts) = total mu ts.
Proof.
  intros H. apply Rle_antisym.
  - apply pair_pass_total. intros a b. rewrite H. lra.
  - pose proof (pair_pass_total (fun t => - mu t) s) as Hopp.
    specialize (Hopp ltac:(intros a b; specialize (H a b); lra) ts).
    rewrite !total_opp in Hopp. lra.
Qed.

(** ** The pairwise loop, more *)

Section PairMore.

(** X11: the pairwise loop as a whole keeps the total linear momentum of
    the bodies (sum of [vx], sum of [vy]), their total spin (sum of [vang])
    and their center of mass (sum of [x], sum of [y]): every impulse, kick
    and push is applied with opposite signs to the two bodies. *)
Theorem pair_pass_conserves_momentum s ts :
  total vx (pair_pass s ts) = total vx ts
  /\ total vy (pair_pass s ts) = total vy ts
  /\ total vang (pair_pass s ts) = total vang ts
  /\ total x (pair_pass s ts) = total x ts
  /\ total y (pair_pass s ts) = total y ts.
Proof.
  repeat split; apply pair_pass_conserves; intros a b;
    unfold collide, collide_along; fields; ring.
Qed.

Lemma center_dist_square a b :
  center_dist a b * center_dist a b = Rmax 1e-6 (dist2 a b).
Proof.
  unfold center_dist. apply sqrt_sqrt.
  pose proof (Rmax_l 1e-6 (dist2 a b)). lra.
Qed.

(** The vector [(nx, ny)] the code divides out is never longer than 1. *)
Lemma normal_at_most_unit a b :
  0 <= normal_x a b * normal_x a b + normal_y a b * normal_y a b <= 1.
Proof.
  pose proof (center_dist_pos a b) as Hpos.
  pose proof (center_dist_square a b) as Hsq.
  pose proof (Rmax_r 1e-6 (dist2 a b)) as Hmax.
  set (d := center_dist a b) in *.
  assert (Hq : normal_x a b * normal_x a b + normal_y a b * normal_y a b
               = dist2 a b / (d * d)).
  { unfold normal_x, normal_y, dist2. fold d. field. lra. }
  rewrite Hq. assert (0 <= dist2 a b) by apply sum_squares_nonneg.
  assert (0 < d * d) by nra.
  split.
  - apply Rmult_le_pos; [assumption |]. left. apply Rinv_0_lt_compat. assumption.
  - apply (Rmult_le_reg_r (d * d)); [assumption |].
    unfold Rdiv. rewrite Rmult_assoc, Rinv_l by lra. lra.
Qed.

Lemma collide_speed2 s a b :
  speed2 (fst (collide s a b)) + speed2 (snd (collide s a b))
  <= speed2 a + speed2 b.
Proof.
  pose proof (normal_at_most_unit a b) as [Hq0 Hq1].
  set (nx := normal_x a b) in *. set (ny := normal_y a b) in *.
  set (relN := rel_normal a b nx ny).
  assert (Hdiff :
    speed2 (fst (collide s a b)) + speed2 (snd (collide s a b))
    = speed2 a + speed2 b
      - (1 + COLL_RESTITUTION) * (relN * relN)
        * (1 - (1 + COLL_RESTITUTION) / 2 * (nx * nx + ny * ny))).
  { unfold collide, collide_along, speed2, relN, rel_normal. fold nx ny. fields.
    field. }
  rewrite Hdiff. unfold COLL_RESTITUTION.
  assert (0 <= relN * relN) by nra.
  assert (0 <= 1 - (1 + 0.8) / 2 * (nx * nx + ny * ny)) by lra.
  assert (0 <= (1 + 0.8) * (relN * relN)
               * (1 - (1 + 0.8) / 2 * (nx * nx + ny * ny))).
  { apply Rmult_le_pos; [nra | assumption]. }
  lra.
Qed.

(** X12: two bodies of the array resolved as colliding, with non-negative
    radii and squared center distance at least 1e-6, are moved apart along
    the normal by half the overlap each, so that the distance between their
    centers equals the sum of their radii (in exact arithmetic; up to
    rounding in the doubles of the code). *)
Theorem pair_resolution_leaves_touching s i j ts a b :
  ts !! i = Some a -> ts !! j = Some b -> i <> j ->
  alive b = true -> overlapping a b = true ->
  1e-6 <= dist2 a b ->
  0 <= r a + r b ->
  exists a' b',
    pair_at s i j ts !! i = Some a'
    /\ pair_at s i j ts !! j = Some b'
    /\ x b' - x a' = (r a + r b) * normal_x a b
    /\ y b' - y a' = (r a + r b) * normal_y a b
    /\ hypot (x b' - x a') (y b' - y a') = r a + r b.
Proof.
  intros Hi Hj Hne Hb Hov Hd Hr.
  destruct (pair_at_collides s i j ts a b Hi Hj Hne Hb Hov) as [Hi' Hj'].
  exists (fst (collide s a b)), (snd (collide s a b)).
  split; [exact Hi' |]. split; [exact Hj' |].
  pose proof (center_dist_pos a b) as Hpos.
  pose proof (normal_unit a b Hd) as Hunit.
  set (nx := normal_x a b) in *. set (ny := normal_y a b) in *.
  assert (Hdx : x (snd (collide s a b)) - x (fst (collide s a b))
                = (r a + r b) * nx).
  { unfold collide, collide_along. fields. fold nx ny.
    unfold nx, normal_x. field. lra. }
  assert (Hdy : y (snd (collide s a b)) - y (fst (collide s a b))
                = (r a + r b) * ny).
  { unfold collide, collide_along. fields. fold nx ny.
    unfold ny, normal_y. field. lra. }
  split; [exact Hdx |]. split; [exact Hdy |].
  rewrite Hdx, Hdy, hypot_scale by assumption.
  rewrite (hypot_of_unit nx ny Hunit). ring.
Qed.

Lemma pair_resolution_leaves_touching_witness :
  1e-6 <= dist2 far_a far_b
  /\ exists a' b',
       pair_at demo_settings 0 1 [far_a; far_b] !! 0%nat = Some a'
       /\ pair_at demo_settings 0 1 [far_a; far_b] !! 1%nat = Some b'
       /\ hypot (x b' - x a') (y b' - y a') = r far_a + r far_b.
Proof.
  assert (Hd : 1e-6 <= dist2 far_a far_b).
  { unfold dist2, far_a, far_b. fields. lra. }
  split; [exact Hd |].
  destruct (pair_resolution_leaves_touching demo_settings 0 1 [far_a; far_b] far_a far_b)
    as (a' & b' & H0 & H1 & _ & _ & Hh).
  - reflexivity.
  - reflexivity.
  - discriminate.
  - reflexivity.
  - unfold overlapping, dist2, far_a, far_b. fields. apply Rltb_true. lra.
  - exact Hd.
  - unfold far_a, far_b. fields. lra.
  - exists a', b'. auto.
Defined.

End PairMore.

(** ** Kinetic energy *)

Section Energy.

Lemma damping_factor k : 0 <= k -> 0 <= Rmax 0 (1 - k) <= 1.
Proof.
  intros Hk. split; [apply Rmax_l |]. apply Rmax_lub; lra.
Qed.

Lemma integrate_one_speed2 s dt t :
  0 <= friction s * dt ->
  speed2 (integrate_one s dt t) <= speed2 t.
Proof.
  intros Hf. unfold integrate_one. destruct (alive t); [| lra].
  pose proof (damping_factor (friction s * dt) Hf) as Hk.
  set (k := Rmax 0 (1 - friction s * dt)) in *.
  unfold speed2. fields.
  replace (vx t * k * (vx t * k) + vy t * k * (vy t * k))
    with (k * k * (vx t * vx t + vy t * vy t)) by ring.
  assert (0 <= vx t * vx t + vy t * vy t) by apply sum_squares_nonneg.
  assert (k * k <= 1) by nra.
  nra.
Qed.

Lemma wall_bounce_speed2 s t :
  0 < hypot (x t) (y t) ->
  speed2 (wall_bounce s t) <= speed2 t.
Proof.
  intros Hpos. pose proof (hypot_unit (x t) (y t) Hpos) as Hunit.
  unfold wall_bounce, wall_reflect, speed2. fields.
  set (nx := x t / hypot (x t) (y t)) in *.
  set (ny := y t / hypot (x t) (y t)) in *.
  set (vn := vx t * nx + vy t * ny).
  transitivity (vx t * vx t + vy t * vy t
                - (1 + WALL_RESTITUTION) * (1 - WALL_RESTITUTION) * (vn * vn)).
  - right. unfold vn.
    transitivity (vx t * vx t + vy t * vy t
                  - 2 * (1 + WALL_RESTITUTION) * (vn * vn)
                  + (1 + WALL_RESTITUTION) * (1 + WALL_RESTITUTION)
                    * (vn * vn) * (nx * nx + ny * ny));
      [unfold vn; ring | rewrite Hunit; unfold vn; ring].
  - unfold WALL_RESTITUTION. assert (0 <= vn * vn) by nra. lra.
Qed.

Lemma wall_one_speed2 s t :
  r t + 4 <= arenaR s ->
  speed2 (wall_one s t) <= speed2 t.
Proof.
  intros Hr. unfold wall_one. destruct (alive t); [| lra].
  destruct (Rltb_spec (arenaR s - r t - 4) (hypot (x t) (y t))) as [Hd | Hd].
  - assert (Hb : speed2 (wall_bounce s t) <= speed2 t)
      by (apply wall_bounce_speed2; lra).
    destruct (ring_out _ _ _); unfold set_alive, speed2 in *; fields; exact Hb.
  - destruct (ring_out _ _ _); unfold set_alive, speed2; fields; lra.
Qed.

(** X13: with a non-negative friction times [dt], in an arena at least 4
    larger than every body, a physics step never increases the total
    kinetic energy of linear motion (the sum of [vx^2 + vy^2] over the
    bodies): damping, wall bounces and pair collisions only take energy
    out. *)
Theorem step_never_adds_energy s dt sim :
  0 <= friction s * dt ->
  Forall (fun t => r t + 4 <= arenaR s) (tops sim) ->
  total speed2 (tops (physicsStep s dt sim)) <= total speed2 (tops sim).
Proof.
  intros Hf Hr. rewrite physicsStep_tops.
  apply Rle_trans with (total speed2 (map (wall_one s) (map (integrate_one s dt) (tops sim)))).
  { apply pair_pass_total. intros a b. apply collide_speed2. }
  apply Rle_trans with (total speed2 (map (integrate_one s dt) (tops sim))).
  { apply (total_map_le speed2 (wall_one s) (fun t => r t + 4 <= arenaR s)).
    - intros t Ht. apply wall_one_speed2, Ht.
    - induction Hr as [| t ts Ht _ IH]; cbn [map]; constructor.
      + rewrite integrate_one_radius. exact Ht.
      + exact IH. }
  apply (total_map_le speed2 (integrate_one s dt) (fun _ => True)).
  - intros t _. apply integrate_one_speed2, Hf.
  - clear. induction (tops sim); constructor; auto.
Qed.

Lemma step_never_adds_energy_witness :
  0 <= friction demo_settings * FIXED_DT
  /\ total speed2 (tops (physicsStep demo_settings FIXED_DT
                           (mkSim true [clash_a; clash_b] None)))
     <= total speed2 [clash_a; clash_b].
Proof.
  assert (Hf : 0 <= friction demo_settings * FIXED_DT).
  { unfold demo_settings, FIXED_DT. fields. lra. }
  split; [exact Hf |].
  apply (step_never_adds_energy demo_settings FIXED_DT
           (mkSim true [clash_a; clash_b] None) Hf).
  repeat constructor; unfold clash_a, clash_b, demo_settings; fields; lra.
Defined.

End Energy.

(** ** The roster *)

Section RosterFacts.

Lemma removeMovie_In i ms m :
  In m (removeMovie i ms) <-> In m ms /\ m_id m <> i.
Proof.
  unfold removeMovie. rewrite List.filter_In, negb_true_iff, String.eqb_neq.
  reflexivity.
Qed.

Lemma removeMovie_absent i ms :
  (forall m, In m ms -> m_id m <> i) -> removeMovie i ms = ms.
Proof.
  unfold removeMovie. induction ms as [| m ms IH]; intros H; [reflexivity |].
  cbn [List.filter].
  assert (Hm : m_id m <> i) by (apply H; left; reflexivity).
  apply String.eqb_neq in Hm. rewrite Hm. cbn [negb]. f_equal.
  apply IH. intros m' Hm'. apply H. right. exact Hm'.
Qed.

(** X15: [removeMovie] drops every entry with the given id (all of them,
    should an id occur twice) and keeps the others: an entry is in the new
    roster exactly when it was in the old one with a different id; the
    roster never gets longer; removing the same id again changes nothing;
    and the roster is unchanged exactly when no entry has that id. *)
Theorem removeMovie_drops_id i ms :
  (forall m, In m (removeMovie i ms) <-> In m ms /\ m_id m <> i)
  /\ (length (removeMovie i ms) <= length ms)%nat
  /\ removeMovie i (removeMovie i ms) = removeMovie i ms
  /\ (removeMovie i ms = ms <-> forall m, In m ms -> m_id m <> i).
Proof.
  split; [intros m; apply removeMovie_In |].
  split; [apply List.filter_length_le |].
  split.
  - apply removeMovie_absent. intros m Hm. apply removeMovie_In in Hm. tauto.
  - split; [| apply removeMovie_absent].
    intros Heq m Hm. rewrite <- Heq in Hm. apply removeMovie_In in Hm. tauto.
Qed.

Lemma color_at_defined n :
  exists c, color_at n = Some c /\ In c DEFAULT_COLORS.
Proof.
  unfold color_at.
  assert (Hlt : (n mod length DEFAULT_COLORS < length DEFAULT_COLORS)%nat)
    by (apply Nat.mod_upper_bound; cbn; lia).
  destruct (lookup_lt_is_Some_2 _ _ Hlt) as [c Hc].
  exists c. split; [exact Hc |].
  apply list_elem_of_In, list_elem_of_lookup. eauto.
Qed.

Variable trim : string -> string.

(** X16: [addMovie] does nothing when the trimmed label is empty;
    otherwise it appends one entry (the given id, the trimmed label, the
    chosen color) after the existing ones, clears the label field, and sets
    the color field to the palette entry at the old roster length modulo
    12, which is always one of the 12 palette colors, never undefined. *)
Theorem addMovie_appends_with_palette_color fresh ms f :
  exists c,
    color_at (length ms) = Some c
    /\ In c DEFAULT_COLORS
    /\ addMovie trim fresh ms f
       = if String.eqb (trim (newLabel f)) ""
         then (ms, f)
         else (ms ++ [mkMovie fresh (trim (newLabel f)) (newColor f)],
               mkForm "" c).
Proof.
  destruct (color_at_defined (length ms)) as (c & Hc & Hin).
  exists c. split; [exact Hc |]. split; [exact Hin |].
  unfold addMovie. rewrite Hc. reflexivity.
Qed.

(** X17: adding a movie with a non-blank label under an id that no entry
    has, then removing that id, gives back the roster as it was. *)
Theorem add_then_remove fresh ms f :
  trim (newLabel f) <> ""%string ->
  (forall m, In m ms -> m_id m <> fresh) ->
  removeMovie fresh (fst (addMovie trim fresh ms f)) = ms.
Proof.
  intros Hl Hfresh. unfold addMovie.
  apply String.eqb_neq in Hl. rewrite Hl. cbn [fst].
  unfold removeMovie. rewrite List.filter_app.
  fold (removeMovie fresh ms). rewrite (removeMovie_absent fresh ms Hfresh).
  cbn [List.filter m_id]. rewrite String.eqb_refl. cbn [negb].
  apply app_nil_r.
Qed.

End RosterFacts.

Lemma add_then_remove_witness :
  removeMovie "z9y8x7w"
    (fst (addMovie (fun l => l) "z9y8x7w" [inception; matrix]
                   (mkForm "Spirited Away" "#f59e0b")))
  = [inception; matrix].
Proof.
  apply (add_then_remove (fun l => l) "z9y8x7w" [inception; matrix]
           (mkForm "Spirited Away" "#f59e0b")).
  - cbn. discriminate.
  - intros m [<- | [<- | []]]; cbn; discriminate.
Defined.

(** ** Starting a match, more *)

Section StartMore.

(** X18: a body that is alive with health at or below 0 when a step begins
    (as pair damage of the step before can leave it) is not alive when the
    step ends, given a non-negative damage multiplier and an arena at least
    4 larger than the body (so that its wall bounce divides by a positive
    distance). *)
Theorem spent_body_dies_next_step s dt sim i t :
  0 <= damage s ->
  tops sim !! i = Some t ->
  alive t = true ->
  hp t <= 0 ->
  r t + 4 <= arenaR s ->
  exists t', tops (physicsStep s dt sim) !! i = Some t' /\ alive t' = false.
Proof.
  intros Hdmg Hi Ha Hhp _.
  destruct (physicsStep_alive s dt sim i t Hi) as (t' & Hi' & Hal).
  exists t'. split; [exact Hi' |]. rewrite Hal.
  set (u := integrate_one s dt t).
  assert (Hu : alive u = true /\ hp u = hp t).
  { unfold u, integrate_one. rewrite Ha. split; reflexivity. }
  destruct Hu as [Hua Huh].
  unfold wall_one. rewrite Hua.
  set (w := if Rltb _ _ then wall_bounce s u else u).
  assert (Hw : hp w <= 0).
  { unfold w. destruct (Rltb _ _); [| lra].
    unfold wall_bounce, wall_reflect. fields.
    match goal with |- _ - Rabs ?v * _ * _ <= _ => pose proof (Rabs_pos v) end.
    nra. }
  assert (Hro : ring_out s (hypot (x u) (y u)) w = true).
  { apply ring_out_true. right. left. exact Hw. }
  rewrite Hro. reflexivity.
Qed.

Lemma spent_body_dies_next_step_witness :
  hp (mkTop "k3v9q1a" "Inception" "#22c55e" 0 0 50 0 0 3 26 (-2) true) <= 0
  /\ exists t',
       tops (physicsStep demo_settings FIXED_DT
               (mkSim true
                  [mkTop "k3v9q1a" "Inception" "#22c55e" 0 0 50 0 0 3 26 (-2) true;
                   far_b] None)) !! 0%nat
       = Some t'
       /\ alive t' = false.
Proof.
  assert (H : hp (mkTop "k3v9q1a" "Inception" "#22c55e" 0 0 50 0 0 3 26 (-2) true) <= 0)
    by (fields; lra).
  split; [exact H |].
  apply (spent_body_dies_next_step demo_settings FIXED_DT
           (mkSim true
              [mkTop "k3v9q1a" "Inception" "#22c55e" 0 0 50 0 0 3 26 (-2) true;
               far_b] None) 0
           (mkTop "k3v9q1a" "Inception" "#22c55e" 0 0 50 0 0 3 26 (-2) true)).
  - unfold demo_settings. fields. lra.
  - reflexivity.
  - reflexivity.
  - exact H.
  - unfold demo_settings. fields. lra.
Defined.

Lemma alive_count_all (ts : list Top) :
  Forall (fun b => alive b = true) ts -> alive_count ts = length ts.
Proof.
  unfold alive_count. induction 1 as [| t ts Ht _ IH]; [reflexivity |].
  cbn [List.filter]. rewrite Ht. cbn [length]. rewrite IH. reflexivity.
Qed.

(** X19: with a roster of at least 2 entries, [start] completes normally
    and leaves a running match without winner, with one body per entry,
    all of them alive; the roster and the settings are untouched. *)
Theorem start_builds_running_match c :
  (2 <= length (movies c))%nat ->
  let c' := snd (start c) in
  fst (start c) = Normal
  /\ running (simRef c') = true
  /\ winner (simRef c') = None
  /\ length (tops (simRef c')) = length (movies c)
  /\ alive_count (tops (simRef c')) = length (movies c)
  /\ movies c' = movies c
  /\ settings c' = settings c.
Proof.
  intros Hn. unfold start.
  destruct (Nat.ltb_spec (length (movies c)) 2) as [Hlt | _]; [lia |].
  cbn [fst snd]. unfold set_running. cbn [simRef running winner tops movies settings].
  destruct (spawnTops_frame c) as (Hm & Hs & _ & Hw).
  assert (Hlen : length (tops (simRef (spawnTops c))) = length (movies c))
    by (rewrite spawnTops_tops; apply length_imap).
  assert (Hall : Forall (fun b => alive b = true) (tops (simRef (spawnTops c)))).
  { rewrite spawnTops_tops. apply Forall_lookup_2. intros j b Hb.
    rewrite list_lookup_imap in Hb.
    destruct (movies c !! j) as [m |]; [| discriminate].
    cbn in Hb. injection Hb as <-. reflexivity. }
  repeat split; try assumption.
  rewrite (alive_count_all _ Hall). exact Hlen.
Qed.

Lemma start_builds_running_match_witness :
  (2 <= length (movies used_component))%nat
  /\ running (simRef (snd (start used_component))) = true
  /\ alive_count (tops (simRef (snd (start used_component)))) = 2%nat.
Proof.
  assert (H : (2 <= length (movies used_component))%nat) by (cbn; lia).
  split; [exact H |].
  destruct (start_builds_running_match used_component H)
    as (_ & Hr & _ & _ & Hc & _ & _).
  split; [exact Hr | exact Hc].
Defined.

(** X20: when the arena radius exceeds the body radius by more than 6,
    every spawned body starts away from the center and heading inward: the
    radial component of its velocity (position dotted with velocity) is
    negative. *)
Theorem spawned_heading_inward c i b :
  topR (settings c) + 6 < arenaR (settings c) ->
  tops (simRef (spawnTops c)) !! i = Some b ->
  0 < hypot (x b) (y b)
  /\ x b * vx b + y b * vy b < 0.
Proof.
  intros Hs Hi.
  rewrite spawnTops_tops, list_lookup_imap in Hi.
  destruct (movies c !! i) as [m |]; [| discriminate].
  cbn in Hi. injection Hi as <-.
  set (s := settings c) in *. set (n := length (movies c)).
  pose proof (stream_unit_interval s (5 * i + 1)) as Hu1.
  pose proof (stream_unit_interval s (5 * i + 2)) as Hu2.
  pose proof (stream_unit_interval s (5 * i + 3)) as Hu3.
  assert (Hrad : 0 < spec_radial s i).
  { unfold spec_radial. assert (0 < arenaR s - topR s - 6) by lra. nra. }
  assert (Hsp : 0 < spec_speed s i) by (unfold spec_speed; lra).
  set (delta := (stream s (5 * i + 3) - 0.5) * 0.6).
  assert (Hcos : 0 < cos delta).
  { pose proof PI2_1. apply cos_gt_0; unfold delta; lra. }
  unfold spec_body. fields. split.
  - rewrite hypot_polar. apply Rabs_pos_lt. lra.
  - replace (cos (spec_angle s n i) * spec_radial s i
             * (cos (spec_heading s n i) * spec_speed s i)
             + sin (spec_angle s n i) * spec_radial s i
               * (sin (spec_heading s n i) * spec_speed s i))
      with (spec_radial s i * spec_speed s i
            * cos (spec_heading s n i - spec_angle s n i))
      by (rewrite cos_minus; ring).
    replace (spec_heading s n i - spec_angle s n i) with (delta + PI)
      by (unfold spec_heading, delta; ring).
    rewrite neg_cos.
    assert (0 < spec_radial s i * spec_speed s i) by (apply Rmult_lt_0_compat; assumption).
    nra.
Qed.

Lemma spawned_heading_inward_witness :
  topR (settings fresh_component) + 6 < arenaR (settings fresh_component)
  /\ forall b, tops (simRef (spawnTops fresh_component)) !! 0%nat = Some b ->
               x b * vx b + y b * vy b < 0.
Proof.
  assert (H : topR (settings fresh_component) + 6 < arenaR (settings fresh_component)).
  { unfold fresh_component, demo_settings. cbn [settings topR arenaR]. lra. }
  split; [exact H |].
  intros b Hb.
  destruct (spawned_heading_inward fresh_component 0 b H Hb) as [_ Hin].
  exact Hin.
Defined.

(** X5: [reset] works on any roster, also one of fewer than 2 entries
    (where [start] does nothing): it leaves the match stopped, without
    winner, with one freshly spawned body per roster entry, all of them
    alive, and the roster and settings as they were; resetting twice is
    resetting once. *)
Theorem reset_rebuilds_stopped_match c :
  running (simRef (reset c)) = false
  /\ winner (simRef (reset c)) = None
  /\ tops (simRef (reset c)) = tops (simRef (spawnTops c))
  /\ length (tops (simRef (reset c))) = length (movies c)
  /\ alive_count (tops (simRef (reset c))) = length (movies c)
  /\ movies (reset c) = movies c
  /\ settings (reset c) = settings c
  /\ reset (reset c) = reset c.
Proof.
  assert (Hpm : movies (pause c) = movies c) by reflexivity.
  assert (Hps : settings (pause c) = settings c) by reflexivity.
  destruct (spawnTops_frame (pause c)) as (Hm & Hs & Hr & Hw).
  destruct (spawnTops_sim (pause c) c Hpm Hps) as (Ht & _ & _).
  assert (Hlen : length (tops (simRef (spawnTops c))) = length (movies c))
    by (rewrite spawnTops_tops; apply length_imap).
  assert (Hall : Forall (fun b => alive b = true) (tops (simRef (spawnTops c)))).
  { rewrite spawnTops_tops. apply Forall_lookup_2. intros j b Hb.
    rewrite list_lookup_imap in Hb.
    destruct (movies c !! j) as [m |]; [| discriminate].
    cbn in Hb. injection Hb as <-. reflexivity. }
  unfold reset.
  split; [rewrite Hr; reflexivity |].
  split; [exact Hw |].
  split; [exact Ht |].
  split; [rewrite Ht; exact Hlen |].
  split; [rewrite Ht, (alive_count_all _ Hall); exact Hlen |].
  split; [rewrite Hm; exact Hpm |].
  split; [rewrite Hs; exact Hps |].
  apply spawnTops_ignores_sim.
  - change (movies (spawnTops (pause c)) = movies (pause c)). exact Hm.
  - change (settings (spawnTops (pause c)) = settings (pause c)). exact Hs.
  - reflexivity.
Qed.

End StartMore.
